(** * The quiz leaderboard service of [src/main.py]

    A shallow embedding of the FastAPI handlers ([update_score],
    [get_leaderboard], [get_user_rank], [get_metadata]), of the background
    task [update_metadata_bg_task] and of the part of the Redis server and of
    [fastapi_utils.tasks.repeat_every] that they drive.

    The handlers are translated line by line.  The Redis commands are not
    code of the repository: they are modelled after the Redis command
    reference (sorted sets ordered by score, then by member bytes; indices of
    ZREVRANGE read as signed 64-bit integers and counted from the end when
    negative; scores held as IEEE 754 doubles; keys that vanish once their
    time to live has run out). *)

From Stdlib Require Import ZArith DecimalString DecimalPos DecimalZ.
From stdpp Require Import gmap strings list sorting.

Local Open Scope Z_scope.

(** ** Module constants, [src/main.py] lines 10-12 *)

Definition LEADERBOARD_EXPIRE : Z := 60 * 60 * 24.

(** ** Scores on the wire and in the sorted set

    [aioredis] sends a Python [int] as its decimal literal; the server reads
    it with [strtod] into a double, correctly rounded (to nearest, ties to
    even), and refuses a literal whose value is out of the range of doubles.
    Every score the service stores is therefore an integer-valued double,
    which the model represents by its exact value in [Z]. *)

Definition round_to_double (n : Z) : Z :=
  let a := Z.abs n in
  let e := Z.log2 a - 52 in
  if e <=? 0 then n
  else
    let q := Z.shiftr a e in
    let r := Z.land a (Z.ones e) in
    let half := Z.shiftl 1 (e - 1) in
    let q' := if (half <? r) || ((r =? half) && Z.odd q) then q + 1 else q in
    Z.sgn n * Z.shiftl q' e.

Definition strtod (n : Z) : option Z :=
  let d := round_to_double n in
  if Z.abs d <? 2 ^ 1024 then Some d else None.

(** Python's [int(x)] on a float [x]: truncation, the identity on the
    integer-valued doubles of the sorted set. *)
Definition int_of_float (d : Z) : Z := d.

(** Python's [str(n)] for an [int] and [int(s)] for a [str] holding a plain
    decimal literal ([ValueError], here [None], otherwise). *)
Definition str_of_int (n : Z) : string := NilZero.string_of_int (Z.to_int n).

Definition int_of_str (s : string) : option Z :=
  match s with
  | EmptyString => None
  | _ => Z.of_int <$> NilZero.int_of_string s
  end.

(** ** The order of a Redis sorted set

    Entries are pairs (member, score), as [map_to_list] yields them; the set
    is kept in ascending order of score, entries of equal score in ascending
    lexicographic order of the member's bytes. *)

Definition zle (a b : string * Z) : Prop :=
  a.2 < b.2 ∨ (a.2 = b.2 ∧ (a.1 ≤ b.1)%string).

#[global] Instance zle_dec : RelDecision zle.
Proof. intros a b; unfold zle; apply _. Defined.

Definition zrange_all (m : gmap string Z) : list (string * Z) :=
  merge_sort zle (map_to_list m).

Definition zrevrange_all (m : gmap string Z) : list (string * Z) :=
  reverse (zrange_all m).

Definition zrank_of (m : gmap string Z) (member : string) : option nat :=
  fst <$> list_find (λ e, e.1 = member) (zrange_all m).

(** ZREVRANK: the rank counted from the highest score, [card - 1 - rank]. *)
Definition zrevrank_of (m : gmap string Z) (member : string) : option Z :=
  (λ r, Z.of_nat (size m) - 1 - Z.of_nat r) <$> zrank_of m member.

(** The index arithmetic of ZRANGE and ZREVRANGE: negative indices count
    from the end, the window is clamped to the set, an empty or inverted
    window yields nothing. *)
Definition range_window {A} (start stop : Z) (l : list A) : list A :=
  let llen := Z.of_nat (length l) in
  let start := if start <? 0 then llen + start else start in
  let stop := if stop <? 0 then llen + stop else stop in
  let start := if start <? 0 then 0 else start in
  if (stop <? start) || (llen <=? start) then []
  else
    let stop := if llen <=? stop then llen - 1 else stop in
    take (Z.to_nat (stop - start + 1)) (drop (Z.to_nat start) l).

(** ** The database: the two keys the service uses

    [LEADERBOARD_KEY] holds a sorted set and [METADATA_KEY] a hash, each with
    an optional expiry instant.  A key whose expiry instant has passed, or
    whose collection is empty, does not exist. *)

Record redis_db := {
  lb_members : gmap string Z;
  lb_expire : option Z;
  md_fields : gmap string string;
  md_expire : option Z
}.

Definition expired (now : Z) (e : option Z) : bool :=
  match e with Some t => t <? now | None => false end.

Definition live_lb (now : Z) (d : redis_db) : gmap string Z :=
  if expired now (lb_expire d) then ∅ else lb_members d.

Definition live_md (now : Z) (d : redis_db) : gmap string string :=
  if expired now (md_expire d) then ∅ else md_fields d.

Definition lb_exists (now : Z) (d : redis_db) : bool :=
  bool_decide (live_lb now d ≠ ∅).

Definition md_exists (now : Z) (d : redis_db) : bool :=
  bool_decide (live_md now d ≠ ∅).

Definition empty_db : redis_db :=
  {| lb_members := ∅; lb_expire := None; md_fields := ∅; md_expire := None |}.

(** ** The process: database, clock, the global [redis] handle and the
    failures the connection is going to meet

    [redis w] is [false] when the module-level handle is [None].
    [faults w] is consumed one item per command sent: [false] makes that
    command raise before it reaches the server, [true] (or an exhausted
    list) lets it through. *)

Record world := {
  db : redis_db;
  now : Z;
  redis : bool;
  faults : list bool
}.

Inductive outcome (A : Type) : Type :=
| Returned (a : A)
| Raised.
Arguments Returned {A} a.
Arguments Raised {A}.

Definition io (A : Type) : Type := world → outcome A * world.

Definition ret {A} (a : A) : io A := λ w, (Returned a, w).

Definition bind {A B} (c : io A) (k : A → io B) : io B := λ w,
  match c w with
  | (Returned a, w') => k a w'
  | (Raised, w') => (Raised, w')
  end.

Notation "'let*' x := c 'in' k" := (bind c (λ x, k))
  (at level 10, x name, c at level 100, k at level 200).
Notation "'do' c 'in' k" := (bind c (λ _, k))
  (at level 10, c at level 100, k at level 200).

Definition command {A} (f : Z → redis_db → outcome A * redis_db) : io A := λ w,
  let '(through, rest) :=
    match faults w with
    | [] => (true, [])
    | b :: bs => (b, bs)
    end in
  if through then
    let '(r, d) := f (now w) (db w) in
    (r, {| db := d; now := now w; redis := redis w; faults := rest |})
  else
    (Raised, {| db := db w; now := now w; redis := redis w; faults := rest |}).

(** ** The commands the service sends *)

Definition zadd (member : string) (score : Z) : io unit :=
  command (λ t d,
    match strtod score with
    | None => (Raised, d)
    | Some x =>
        (Returned tt,
         {| lb_members := <[member := x]> (live_lb t d);
            lb_expire := if lb_exists t d then lb_expire d else None;
            md_fields := md_fields d;
            md_expire := md_expire d |})
    end).

Definition expire_leaderboard (seconds : Z) : io unit :=
  command (λ t d,
    (Returned tt,
     if lb_exists t d then
       {| lb_members := lb_members d;
          lb_expire := Some (t + seconds);
          md_fields := md_fields d;
          md_expire := md_expire d |}
     else d)).

Definition zrevrank (member : string) : io (option Z) :=
  command (λ t d, (Returned (zrevrank_of (live_lb t d) member), d)).

Definition zscore (member : string) : io (option Z) :=
  command (λ t d, (Returned (live_lb t d !! member), d)).

Definition zcard : io Z :=
  command (λ t d, (Returned (Z.of_nat (size (live_lb t d))), d)).

(** The server reads an index as a signed 64-bit integer, before it looks
    the key up, and refuses any other value. *)
Definition in_int64 (z : Z) : bool :=
  (-9223372036854775808 <=? z) && (z <=? 9223372036854775807).

Definition zrevrange (start stop : Z) : io (list (string * Z)) :=
  command (λ t d,
    if in_int64 start && in_int64 stop then
      (Returned (range_window start stop (zrevrange_all (live_lb t d))), d)
    else (Raised, d)).

Definition hset (mapping : list (string * string)) : io unit :=
  command (λ t d,
    (Returned tt,
     {| lb_members := lb_members d;
        lb_expire := lb_expire d;
        md_fields := foldr (λ kv h, <[kv.1 := kv.2]> h) (live_md t d) mapping;
        md_expire := if md_exists t d then md_expire d else None |})).

Definition expire_metadata (seconds : Z) : io unit :=
  command (λ t d,
    (Returned tt,
     if md_exists t d then
       {| lb_members := lb_members d;
          lb_expire := lb_expire d;
          md_fields := md_fields d;
          md_expire := Some (t + seconds) |}
     else d)).

Definition hgetall : io (gmap string string) :=
  command (λ t d, (Returned (live_md t d), d)).

(** ** Request and response models, [src/main.py] lines 23-40 *)

Record UserScoreUpdate := {
  username : string;
  score : Z
}.

Record LeaderboardEntry := {
  entry_username : string;
  entry_score : Z;
  entry_rank : Z
}.

Record UserRankResponse := {
  rank_username : string;
  rank_score : option Z;
  rank_rank : option Z
}.

Record LeaderboardMetadata := {
  total_users : Z;
  top_score : option Z;
  top_user : option string
}.

(** The [score] field of the body of [POST /api/score] once pydantic has
    coerced it: an integer, or nothing. *)
Inductive score_field :=
| IntScore (z : Z)
| NotAnInt.

(** [score: int = Field(..., ge=0)] *)
Definition validate_UserScoreUpdate (name : string) (f : score_field)
  : option UserScoreUpdate :=
  match f with
  | IntScore z => if 0 <=? z then Some {| username := name; score := z |} else None
  | NotAnInt => None
  end.

(** ** What a caller receives

    [InvalidScore] is FastAPI's 422 for a body that fails validation,
    [Unavailable] the [HTTPException(status_code=503)] of the handlers. *)

Inductive failure := InvalidScore | Unavailable.

Inductive reply (A : Type) : Type :=
| Ok (a : A)
| Failed (f : failure).
Arguments Ok {A} a.
Arguments Failed {A} f.

Definition handler (A : Type) : Type := world → reply A * world.

(** The frame shared by the four handlers:
    [if not redis: raise 503], then [try: ... except Exception: raise 503]. *)
Definition guarded {A} (body : io A) : handler A := λ w,
  if negb (redis w) then (Failed Unavailable, w)
  else
    match body w with
    | (Returned a, w') => (Ok a, w')
    | (Raised, w') => (Failed Unavailable, w')
    end.

(** A pure step that may raise ([int] of a malformed string). *)
Definition or_raise {A} (o : option A) : io A := λ w,
  match o with
  | Some a => (Returned a, w)
  | None => (Raised, w)
  end.

(** [score or 0] on an optional float: [None] and [0.0] are both falsy. *)
Definition or_zero (s : option Z) : Z :=
  match s with
  | Some x => if x =? 0 then 0 else x
  | None => 0
  end.

(** ** The handlers *)

(** [update_score], lines 59-77 *)
Definition update_score (update : UserScoreUpdate) : handler UserRankResponse :=
  guarded (
    do zadd (username update) (score update) in
    do expire_leaderboard LEADERBOARD_EXPIRE in
    let* rank := zrevrank (username update) in
    let rank := match rank with Some r => Some (r + 1) | None => None end in
    let* score := zscore (username update) in
    ret {| rank_username := username update;
           rank_score := Some (int_of_float (or_zero score));
           rank_rank := rank |}).

(** [POST /api/score]: validation of the body, then the handler. *)
Definition post_score (name : string) (f : score_field) : handler UserRankResponse := λ w,
  match validate_UserScoreUpdate name f with
  | Some update => update_score update w
  | None => (Failed InvalidScore, w)
  end.

(** The [score] field of the JSON body before validation: an integer, or
    any other JSON value together with what pydantic's coercion to [int]
    makes of it.  The coercion is pydantic's, not the repository's, and
    differs between releases (the string "7" and the float 150.0 become 7
    and 150 in all of them; 1.5 becomes 1 in releases 1.x and is refused
    later), so its outcome is part of the input: [Some z] when the value is
    coerced to the integer [z], [None] when it is refused. *)
Inductive score_body :=
| JsonInt (z : Z)
| JsonOther (coerced : option Z).

(** The integer the validation works with, if any. *)
Definition integer_of (b : score_body) : option Z :=
  match b with
  | JsonInt z => Some z
  | JsonOther coerced => coerced
  end.

Definition coerce (b : score_body) : score_field :=
  match integer_of b with
  | Some z => IntScore z
  | None => NotAnInt
  end.

(** [POST /api/score] on a raw body: coercion, validation, handler. *)
Definition submit_score (name : string) (b : score_body) : handler UserRankResponse :=
  post_score name (coerce b).

(** [get_leaderboard], lines 79-98 *)
Definition get_leaderboard (top : Z) : handler (list LeaderboardEntry) :=
  guarded (
    let* res := zrevrange 0 (top - 1) in
    ret (imap (λ idx e,
                 {| entry_username := e.1;
                    entry_score := int_of_float e.2;
                    entry_rank := Z.of_nat idx + 1 |}) res)).

(** [get_user_rank], lines 100-117 *)
Definition get_user_rank (name : string) : handler UserRankResponse :=
  guarded (
    let* rank := zrevrank name in
    let* score := zscore name in
    let response :=
      {| rank_username := name; rank_score := None; rank_rank := None |} in
    let response :=
      match rank with
      | Some r => {| rank_username := rank_username response;
                     rank_score := rank_score response;
                     rank_rank := Some (r + 1) |}
      | None => response
      end in
    let response :=
      match score with
      | Some s => {| rank_username := rank_username response;
                     rank_score := Some (int_of_float s);
                     rank_rank := rank_rank response |}
      | None => response
      end in
    ret response).

(** [get_metadata], lines 119-133.  [meta.get('top_score')] is truthy when
    the field is there and is not the empty string. *)
Definition truthy (o : option string) : bool :=
  match o with
  | Some (String _ _) => true
  | _ => false
  end.

Definition get_metadata : handler LeaderboardMetadata :=
  guarded (
    let* meta := hgetall in
    let* total :=
      match meta !! "total_users" with
      | Some s => or_raise (int_of_str s)
      | None => ret 0
      end in
    let* top :=
      if truthy (meta !! "top_score") then
        match meta !! "top_score" with
        | Some s => let* n := or_raise (int_of_str s) in ret (Some n)
        | None => ret (Some 0)
        end
      else ret None in
    ret {| total_users := total;
           top_score := top;
           top_user := meta !! "top_user" |}).

(** [update_metadata_bg_task], lines 135-155: nothing is returned and every
    exception is swallowed. *)
Definition update_metadata_bg_task (w : world) : world :=
  if negb (redis w) then w
  else
    snd ((let* total_users := zcard in
          let* top_data := zrevrange 0 0 in
          let '(top_score, top_user) :=
            match top_data with
            | e :: _ => (Some (int_of_float e.2), Some e.1)
            | [] => (None, None)
            end in
          do hset [("total_users", str_of_int total_users);
                   ("top_score",
                    match top_score with Some s => str_of_int s | None => "" end);
                   ("top_user",
                    match top_user with Some u => u | None => "" end)] in
          expire_metadata LEADERBOARD_EXPIRE) w).

(** ** The scheduler: [@repeat_every(seconds=30, wait_first=True)]

    [fastapi_utils.tasks.repeat_every] runs a first wait, then
    [while True: await func(); await sleep(seconds)].  The source pins no
    release, and releases read [wait_first] in two ways: as a flag (up to
    0.2.1: [if wait_first: await sleep(seconds)]), or as the delay itself
    (later: [if wait_first is not None: await sleep(wait_first)], where
    [True] counts as one second and [False] as none).  The schedule is the
    sequence of actions of the loop, cut after [rounds] turns. *)

Inductive action :=
| Sleep (seconds : Z)
| Call.

Inductive release :=
| FlagWaitFirst
| DelayWaitFirst.

Fixpoint loop (seconds : Z) (rounds : nat) : list action :=
  match rounds with
  | O => []
  | S n => Call :: Sleep seconds :: loop seconds n
  end.

Definition first_wait (r : release) (seconds : Z) (wait_first : bool) : list action :=
  match r with
  | FlagWaitFirst => if wait_first then [Sleep seconds] else []
  | DelayWaitFirst => [Sleep (if wait_first then 1 else 0)]
  end.

Definition repeat_every (r : release) (seconds : Z) (wait_first : bool)
    (rounds : nat) : list action :=
  first_wait r seconds wait_first ++ loop seconds rounds.

Definition update_metadata_schedule (r : release) : nat → list action :=
  repeat_every r 30 true.

(** The seconds the schedule of the task waits before its first call. *)
Definition first_delay (r : release) : Z :=
  match r with
  | FlagWaitFirst => 30
  | DelayWaitFirst => 1
  end.

(** Time passing: [asyncio.sleep(dt)] lets [dt] seconds elapse, none when
    [dt] is not positive. *)
Definition advance (dt : Z) (w : world) : world :=
  {| db := db w; now := now w + Z.max 0 dt; redis := redis w; faults := faults w |}.

Definition perform (a : action) (w : world) : world :=
  match a with
  | Sleep s => advance s w
  | Call => update_metadata_bg_task w
  end.

Definition run_schedule (l : list action) (w : world) : world :=
  foldl (λ w a, perform a w) w l.

(** The instants, counted from a start at [t], at which the task is called. *)
Fixpoint call_times (t : Z) (l : list action) : list Z :=
  match l with
  | [] => []
  | Sleep s :: l' => call_times (t + Z.max 0 s) l'
  | Call :: l' => t :: call_times t l'
  end.

(** The process right after a successful [startup_event], at instant [t]. *)
Definition started (t : Z) : world :=
  {| db := empty_db; now := t; redis := true; faults := [] |}.

(** ** Histories: what happens to the process, in order *)

Inductive event :=
| Submit (name : string) (f : score_field)
| TopK (top : Z)
| GetRank (name : string)
| GetMetadata
| Tick
| Elapse (dt : Z).

Definition step (e : event) (w : world) : world :=
  match e with
  | Submit name f => snd (post_score name f w)
  | TopK top => snd (get_leaderboard top w)
  | GetRank name => snd (get_user_rank name w)
  | GetMetadata => snd (get_metadata w)
  | Tick => update_metadata_bg_task w
  | Elapse dt => advance dt w
  end.

Definition run (h : list event) (w : world) : world :=
  foldl (λ w e, step e w) w h.

(** The seconds that elapse during a history. *)
Definition elapsed (h : list event) : Z :=
  foldr (λ e acc, match e with Elapse dt => Z.max 0 dt + acc | _ => acc end) 0 h.

Definition submits_of (name : string) (e : event) : Prop :=
  match e with
  | Submit n _ => n = name
  | _ => False
  end.

(** Strict lexicographic order on identities. *)
Definition slt (a b : string) : Prop := (a ≤ b)%string ∧ a ≠ b.

(** The scenario of the specification: three submissions on a fresh process. *)
Definition scenario : world :=
  run [Submit "alice" (IntScore 150);
       Submit "bob" (IntScore 200);
       Submit "carol" (IntScore 150)] (started 0).

(** ** Process start, [src/main.py] lines 42-51

    [startup_event] binds the handle, then pings; a ping that raises resets
    the handle to [None].  PING reads nothing and writes nothing. *)

Definition ping : io unit :=
  command (λ t d, (Returned tt, d)).

Definition startup_event (w : world) : world :=
  let w := {| db := db w; now := now w; redis := true; faults := faults w |} in
  match ping w with
  | (Returned _, w') => w'
  | (Raised, w') =>
      {| db := db w'; now := now w'; redis := false; faults := faults w' |}
  end.

(** [b] stands strictly ahead of [a] in the ranking: a higher score, or the
    same score and a greater identity. *)
Definition ahead_of (a b : string * Z) : Prop := zle a b ∧ a ≠ b.

#[global] Instance ahead_of_dec a b : Decision (ahead_of a b).
Proof. unfold ahead_of; apply _. Defined.

(** How many rows a request for [top] rows gets out of [count]. *)
Definition rows_for (top count : Z) : nat :=
  Z.to_nat (if 1 <=? top then top else count + top).

(** ** Databases the proofs name *)

(** The database after a ZADD and an EXPIRE have gone through at instant [t]. *)
Definition written (t : Z) (d : redis_db) (name : string) (x : Z) : redis_db :=
  {| lb_members := <[name := x]> (live_lb t d);
     lb_expire := Some (t + LEADERBOARD_EXPIRE);
     md_fields := md_fields d;
     md_expire := md_expire d |}.

(** The database after the ZADD alone. *)
Definition added (t : Z) (d : redis_db) (name : string) (x : Z) : redis_db :=
  {| lb_members := <[name := x]> (live_lb t d);
     lb_expire := if lb_exists t d then lb_expire d else None;
     md_fields := md_fields d;
     md_expire := md_expire d |}.

(** The database after an EXPIRE of the leaderboard alone. *)
Definition refreshed (t : Z) (d : redis_db) : redis_db :=
  {| lb_members := lb_members d;
     lb_expire := Some (t + LEADERBOARD_EXPIRE);
     md_fields := md_fields d;
     md_expire := md_expire d |}.

(** The database after the HSET of a snapshot, and after the EXPIRE of the
    metadata key. *)
Definition published (t : Z) (d : redis_db) (mapping : list (string * string)) : redis_db :=
  {| lb_members := lb_members d;
     lb_expire := lb_expire d;
     md_fields := foldr (λ kv h, <[kv.1 := kv.2]> h) (live_md t d) mapping;
     md_expire := if md_exists t d then md_expire d else None |}.

Definition md_refreshed (t : Z) (d : redis_db) : redis_db :=
  {| lb_members := lb_members d;
     lb_expire := lb_expire d;
     md_fields := md_fields d;
     md_expire := Some (t + LEADERBOARD_EXPIRE) |}.

(** The mapping [update_metadata_bg_task] hands to HSET when the live
    sorted set is [m]. *)
Definition snapshot_of (m : gmap string Z) : list (string * string) :=
  let top_data := range_window 0 0 (zrevrange_all m) in
  [("total_users", str_of_int (Z.of_nat (size m)));
   ("top_score",
    match top_data with e :: _ => str_of_int (int_of_float e.2) | [] => "" end);
   ("top_user",
    match top_data with e :: _ => e.1 | [] => "" end)].

(** The entries of a reply of [get_leaderboard] made of the rows [res]. *)
Definition ranked (res : list (string * Z)) : list LeaderboardEntry :=
  imap (λ idx e,
          {| entry_username := e.1;
             entry_score := int_of_float e.2;
             entry_rank := Z.of_nat idx + 1 |}) res.

(** A fresh process whose connection carries the first command and drops the
    second. *)
Definition outage_after_write : world :=
  {| db := empty_db; now := 0; redis := true; faults := [true; false] |}.

(** The process once the connection lets every command through again. *)
Definition restored (w : world) : world :=
  {| db := db w; now := now w; redis := redis w; faults := [] |}.

(** The reply of a submission that went through. *)
Definition accepted (t : Z) (d : redis_db) (name : string) (x : Z) : UserRankResponse :=
  {| rank_username := name;
     rank_score := Some x;
     rank_rank := (λ r, r + 1) <$> zrevrank_of (<[name := x]> (live_lb t d)) name |}.

(** The entry of [name] is in the stored sorted set with score [x], and the
    key does not expire before instant [B]. *)
Definition holds_entry (name : string) (x B : Z) (d : redis_db) : Prop :=
  lb_members d !! name = Some x ∧ ∃ e, lb_expire d = Some e ∧ B ≤ e.

(** The seconds an event lets elapse. *)
Definition duration (e : event) : Z :=
  match e with
  | Elapse dt => Z.max 0 dt
  | _ => 0
  end.

(** A computation keeps [P] when it leaves the clock and the handle alone
    and relates the database before and after by [P]. *)
Definition keeps (P : Z → redis_db → redis_db → Prop) {A} (c : io A) : Prop :=
  ∀ w r w', c w = (r, w') →
    now w' = now w ∧ redis w' = redis w ∧ P (now w) (db w) (db w').

(** * Properties *)

(** ** The order of the sorted set *)

#[global] Instance zle_total : Total zle.
Proof.
  intros [a x] [b y]; unfold zle; simpl.
  destruct (Z.lt_trichotomy x y) as [?|[->|?]]; [by left; left| |by right; left].
  destruct (total String.le a b); [left|right]; by right.
Qed.

#[global] Instance zle_trans : Transitive zle.
Proof.
  intros [a x] [b y] [c z]; unfold zle; simpl.
  intros [?|[-> Hab]] [?|[-> Hbc]]; try (left; lia); try by left.
  right; split; [done|by etrans].
Qed.

#[global] Instance zle_antisymm : AntiSymm (=) zle.
Proof.
  intros [a x] [b y]; unfold zle; simpl.
  intros [?|[-> Hab]] [?|[? Hba]]; try lia.
  f_equal. by apply (anti_symm String.le).
Qed.

Lemma zrange_all_sorted m : StronglySorted zle (zrange_all m).
Proof. apply StronglySorted_merge_sort; apply _. Qed.

Lemma zrange_all_perm m : zrange_all m ≡ₚ map_to_list m.
Proof. apply merge_sort_Permutation. Qed.

Lemma length_zrange_all m : length (zrange_all m) = size m.
Proof. by rewrite zrange_all_perm, length_map_to_list. Qed.

Lemma elem_of_zrange_all m u x : (u, x) ∈ zrange_all m ↔ m !! u = Some x.
Proof. by rewrite zrange_all_perm, elem_of_map_to_list. Qed.

Lemma zrange_all_NoDup_fst m : NoDup (zrange_all m).*1.
Proof. rewrite zrange_all_perm. apply NoDup_fst_map_to_list. Qed.

Lemma zrange_all_empty : zrange_all ∅ = [].
Proof. unfold zrange_all. by rewrite map_to_list_empty. Qed.

Lemma length_zrevrange_all m : length (zrevrange_all m) = size m.
Proof. unfold zrevrange_all. by rewrite length_reverse, length_zrange_all. Qed.

Lemma elem_of_zrevrange_all m u x : (u, x) ∈ zrevrange_all m ↔ m !! u = Some x.
Proof. unfold zrevrange_all. by rewrite elem_of_reverse, elem_of_zrange_all. Qed.

(** Where a member stands in the ascending enumeration. *)
Lemma zrank_of_Some m u r :
  zrank_of m u = Some r ↔ ∃ x, zrange_all m !! r = Some (u, x).
Proof.
  unfold zrank_of. split.
  - intros H. apply fmap_Some in H as ([i [v x]] & Hf & ->).
    apply list_find_Some in Hf as (Hl & Hv & _). simpl in *. subst. eauto.
  - intros [x Hx].
    destruct (list_find (λ e, e.1 = u) (zrange_all m)) as [[i [v y]]|] eqn:Hf.
    + apply list_find_Some in Hf as (Hl & Hv & _). simpl in *. subst v.
      f_equal.
      pose proof (zrange_all_NoDup_fst m) as Hnd.
      eapply NoDup_lookup; [exact Hnd| |].
      * rewrite list_lookup_fmap, Hl. done.
      * rewrite list_lookup_fmap, Hx. done.
    + apply list_find_None in Hf.
      apply list_elem_of_lookup_2 in Hx.
      rewrite Forall_forall in Hf. by specialize (Hf _ Hx).
Qed.

Lemma zrank_of_None m u : zrank_of m u = None ↔ m !! u = None.
Proof.
  split.
  - intros H. destruct (m !! u) as [x|] eqn:Hm; [|done].
    apply elem_of_zrange_all, list_elem_of_lookup in Hm as [r Hr].
    assert (zrank_of m u = Some r) by (apply zrank_of_Some; eauto). congruence.
  - intros H. destruct (zrank_of m u) as [r|] eqn:Hr; [|done].
    apply zrank_of_Some in Hr as [x Hx].
    apply list_elem_of_lookup_2, elem_of_zrange_all in Hx. congruence.
Qed.

Lemma zrank_of_lookup m u r x :
  zrange_all m !! r = Some (u, x) → m !! u = Some x ∧ (r < size m)%nat.
Proof.
  intros H. split.
  - by apply list_elem_of_lookup_2, elem_of_zrange_all in H.
  - rewrite <- length_zrange_all. by eapply lookup_lt_Some.
Qed.

Lemma StronglySorted_lookup_le {A} (R : relation A) (l : list A) i j a b :
  StronglySorted R l → (i < j)%nat → l !! i = Some a → l !! j = Some b → R a b.
Proof.
  intros Hs. revert i j. induction Hs as [|x l Hs IH Hall]; intros i j Hij Hi Hj.
  - by rewrite lookup_nil in Hi.
  - destruct j as [|j]; [lia|]. simpl in Hj. destruct i as [|i]; simpl in Hi.
    + injection Hi as ->. rewrite Forall_forall in Hall.
      apply Hall. by eapply list_elem_of_lookup_2.
    + apply (IH i j); [lia|done|done].
Qed.

(** Two positions of the descending enumeration: the later entry is below the
    earlier one in the order of the set, and is another member. *)
Lemma zrevrange_all_ordered m i j a b :
  (i < j)%nat →
  zrevrange_all m !! i = Some a → zrevrange_all m !! j = Some b →
  zle b a ∧ a.1 ≠ b.1.
Proof.
  unfold zrevrange_all. intros Hij Hi Hj.
  apply reverse_lookup_Some in Hi as [Hi Hli].
  apply reverse_lookup_Some in Hj as [Hj Hlj].
  split.
  - eapply (StronglySorted_lookup_le zle); [apply zrange_all_sorted| |exact Hj|exact Hi].
    lia.
  - intros Heq.
    assert (length (zrange_all m) - S i = length (zrange_all m) - S j)%nat; [|lia].
    eapply NoDup_lookup; [apply (zrange_all_NoDup_fst m)| |].
    + rewrite list_lookup_fmap, Hi. done.
    + rewrite list_lookup_fmap, Hj. simpl. by rewrite Heq.
Qed.

(** ZREVRANK is the position in the descending enumeration. *)
Lemma zrevrank_of_Some m u k :
  zrevrank_of m u = Some k ↔
  ∃ i x, k = Z.of_nat i ∧ zrevrange_all m !! i = Some (u, x).
Proof.
  unfold zrevrank_of, zrevrange_all. split.
  - intros H. apply fmap_Some in H as (r & Hr & ->).
    apply zrank_of_Some in Hr as [x Hx].
    pose proof (lookup_lt_Some _ _ _ Hx) as Hlt.
    rewrite length_zrange_all in Hlt.
    exists (size m - S r)%nat, x. split; [lia|].
    apply reverse_lookup_Some. rewrite length_zrange_all. split; [|lia].
    rewrite <- Hx. f_equal. lia.
  - intros (i & x & -> & Hi).
    apply reverse_lookup_Some in Hi as [Hi Hlt].
    rewrite length_zrange_all in Hi, Hlt.
    assert (zrank_of m u = Some (size m - S i)%nat) as ->
      by (apply zrank_of_Some; eauto).
    simpl. f_equal. lia.
Qed.

Lemma zrevrank_of_None m u : zrevrank_of m u = None ↔ m !! u = None.
Proof. unfold zrevrank_of. rewrite fmap_None. apply zrank_of_None. Qed.

Lemma zrevrank_of_bounds m u k :
  zrevrank_of m u = Some k → 0 ≤ k < Z.of_nat (size m).
Proof.
  intros (i & x & -> & Hi)%zrevrank_of_Some.
  apply lookup_lt_Some in Hi. rewrite length_zrevrange_all in Hi. lia.
Qed.

Lemma zrevrank_of_present m u x :
  m !! u = Some x → ∃ k, zrevrank_of m u = Some k.
Proof.
  intros H. destruct (zrevrank_of m u) as [k|] eqn:Hk; [eauto|].
  apply zrevrank_of_None in Hk. congruence.
Qed.

(** ** Scores as doubles *)

Lemma round_to_double_small s : 0 ≤ s ≤ 2 ^ 53 → round_to_double s = s.
Proof.
  intros Hs. unfold round_to_double.
  destruct (Z.leb_spec (Z.log2 (Z.abs s) - 52) 0) as [|Hlog]; [done|].
  rewrite Z.abs_eq in * by lia.
  assert (s = 2 ^ 53) as ->.
  { destruct (Z.eq_dec s (2 ^ 53)); [done|].
    assert (Z.log2 s < 53); [|lia].
    destruct (Z.eq_dec s 0) as [->|]; [done|].
    apply Z.log2_lt_pow2; lia. }
  reflexivity.
Qed.

Lemma strtod_small s : 0 ≤ s ≤ 2 ^ 53 → strtod s = Some s.
Proof.
  intros Hs. unfold strtod. rewrite round_to_double_small by done.
  destruct (Z.ltb_spec (Z.abs s) (2 ^ 1024)) as [|Hge]; [done|].
  exfalso. assert (2 ^ 53 < 2 ^ 1024) by (apply Z.pow_lt_mono_r; lia). lia.
Qed.

Lemma strtod_Some s d : strtod s = Some d → d = round_to_double s.
Proof. unfold strtod. by case_match; intros [= <-]. Qed.

(** ** The plumbing: [bind] and [command] *)

Lemma bind_Returned {A B} (c : io A) (k : A → io B) w b w' :
  bind c k w = (Returned b, w') →
  ∃ a w1, c w = (Returned a, w1) ∧ k a w1 = (Returned b, w').
Proof.
  unfold bind. destruct (c w) as [[a|] w1]; [eauto|discriminate].
Qed.

Lemma bind_Raised {A B} (c : io A) (k : A → io B) w w' :
  bind c k w = (Raised, w') →
  c w = (Raised, w') ∨ ∃ a w1, c w = (Returned a, w1) ∧ k a w1 = (Raised, w').
Proof.
  unfold bind. destruct (c w) as [[a|] w1]; [eauto|].
  intros [= <-]. by left.
Qed.

(** A command leaves the clock and the handle alone, uses up one item of the
    failures to come, and either raises without reaching the server or does
    what the server does. *)
Lemma command_frame {A} (f : Z → redis_db → outcome A * redis_db) w r w' :
  command f w = (r, w') →
  now w' = now w ∧ redis w' = redis w ∧ faults w' = tail (faults w) ∧
  ((r = Raised ∧ db w' = db w) ∨ f (now w) (db w) = (r, db w')).
Proof.
  unfold command. destruct w as [d t h fl]; simpl.
  destruct fl as [|[] fl]; simpl; try destruct (f t d) as [r0 d0] eqn:Hf;
    intros [= <- <-]; simpl; auto 10.
Qed.

Lemma command_through {A} (f : Z → redis_db → outcome A * redis_db) w :
  faults w = [] →
  command f w =
  ((f (now w) (db w)).1,
   {| db := (f (now w) (db w)).2; now := now w; redis := redis w; faults := [] |}).
Proof.
  unfold command. intros ->. by destruct (f (now w) (db w)).
Qed.

(** ** Expiry *)

Lemma live_lb_expired t d : expired t (lb_expire d) = true → live_lb t d = ∅.
Proof. unfold live_lb. by intros ->. Qed.

Lemma lb_exists_live t d :
  lb_exists t d = true → expired t (lb_expire d) = false ∧ live_lb t d = lb_members d.
Proof.
  unfold lb_exists, live_lb. intros H%bool_decide_eq_true.
  by destruct (expired t (lb_expire d)).
Qed.

Lemma LEADERBOARD_EXPIRE_pos : 0 < LEADERBOARD_EXPIRE.
Proof. reflexivity. Qed.

Lemma live_lb_added t d name x :
  live_lb t (added t d name x) = <[name := x]> (live_lb t d).
Proof.
  unfold live_lb at 1, added; simpl.
  destruct (lb_exists t d) eqn:He; [|done].
  apply lb_exists_live in He as [-> _]. done.
Qed.

Lemma lb_exists_added t d name x : lb_exists t (added t d name x) = true.
Proof.
  unfold lb_exists. rewrite live_lb_added. apply bool_decide_eq_true.
  apply insert_non_empty.
Qed.

Lemma live_lb_written t d name x :
  live_lb t (written t d name x) = <[name := x]> (live_lb t d).
Proof.
  unfold live_lb at 1, written; simpl.
  pose proof LEADERBOARD_EXPIRE_pos.
  destruct (Z.ltb_spec (t + LEADERBOARD_EXPIRE) t); [lia|done].
Qed.

Lemma refreshed_added t d name x :
  refreshed t (added t d name x) = written t d name x.
Proof. reflexivity. Qed.

Lemma or_zero_Some x : int_of_float (or_zero (Some x)) = x.
Proof. unfold int_of_float, or_zero. destruct (Z.eqb_spec x 0); congruence. Qed.

(** ** The handlers over a working connection *)

Lemma update_score_healthy update w x :
  redis w = true → faults w = [] → strtod (score update) = Some x →
  update_score update w =
  (Ok {| rank_username := username update;
         rank_score := Some x;
         rank_rank :=
           (λ r, r + 1) <$>
             zrevrank_of (<[username update := x]> (live_lb (now w) (db w)))
                         (username update) |},
   {| db := written (now w) (db w) (username update) x;
      now := now w; redis := true; faults := [] |}).
Proof.
  intros Hr Hf Hx. unfold update_score, guarded. rewrite Hr. simpl.
  unfold bind at 1. unfold zadd. rewrite command_through by done. simpl.
  rewrite Hx. simpl. fold (added (now w) (db w) (username update) x).
  rewrite lb_exists_added. fold (written (now w) (db w) (username update) x).
  rewrite live_lb_written, lookup_insert_eq, or_zero_Some, Hr.
  by destruct (zrevrank_of _ _).
Qed.

Lemma update_score_refused update w :
  redis w = true → faults w = [] → strtod (score update) = None →
  update_score update w = (Failed Unavailable, w).
Proof.
  intros Hr Hf Hx. unfold update_score, guarded. rewrite Hr. simpl.
  unfold bind at 1. unfold zadd. rewrite command_through by done. simpl.
  rewrite Hx. simpl. destruct w; simpl in *; by subst.
Qed.

Lemma get_user_rank_healthy name w :
  redis w = true → faults w = [] →
  get_user_rank name w =
  (Ok {| rank_username := name;
         rank_score := int_of_float <$> live_lb (now w) (db w) !! name;
         rank_rank := (λ r, r + 1) <$> zrevrank_of (live_lb (now w) (db w)) name |},
   w).
Proof.
  intros Hr Hf. unfold get_user_rank, guarded. rewrite Hr. simpl.
  unfold bind at 1. unfold zrevrank. rewrite command_through by done. simpl.
  destruct w; simpl in *; subst.
  by destruct (zrevrank_of _ _), (live_lb _ _ !! _).
Qed.

Lemma get_leaderboard_healthy top w :
  redis w = true → faults w = [] → in_int64 (top - 1) = true →
  get_leaderboard top w =
  (Ok (imap (λ idx e,
               {| entry_username := e.1;
                  entry_score := int_of_float e.2;
                  entry_rank := Z.of_nat idx + 1 |})
            (range_window 0 (top - 1) (zrevrange_all (live_lb (now w) (db w))))),
   w).
Proof.
  intros Hr Hf Hin. unfold get_leaderboard, guarded. rewrite Hr. simpl.
  unfold bind at 1. unfold zrevrange. rewrite command_through by done.
  change (in_int64 0) with true. rewrite Hin. simpl.
  unfold ret. destruct w; simpl in *; by subst.
Qed.

Lemma get_leaderboard_out_of_range top w :
  redis w = true → faults w = [] → in_int64 (top - 1) = false →
  get_leaderboard top w = (Failed Unavailable, w).
Proof.
  intros Hr Hf Hin. unfold get_leaderboard, guarded. rewrite Hr. simpl.
  unfold bind at 1. unfold zrevrange. rewrite command_through by done.
  change (in_int64 0) with true. rewrite Hin. simpl.
  destruct w; simpl in *; by subst.
Qed.

Lemma get_leaderboard_Ok_in_range top w l :
  redis w = true → faults w = [] →
  (get_leaderboard top w).1 = Ok l → in_int64 (top - 1) = true.
Proof.
  intros Hr Hf Hok. destruct (in_int64 (top - 1)) eqn:Hin; [done|].
  by rewrite get_leaderboard_out_of_range in Hok.
Qed.

Lemma get_metadata_healthy w :
  redis w = true → faults w = [] →
  get_metadata w =
  (let meta := live_md (now w) (db w) in
   match
     match meta !! "total_users" with Some s => int_of_str s | None => Some 0 end,
     if truthy (meta !! "top_score")
     then match meta !! "top_score" with
          | Some s => Some <$> int_of_str s
          | None => Some (Some 0)
          end
     else Some None
   with
   | Some total, Some top =>
       Ok {| total_users := total; top_score := top; top_user := meta !! "top_user" |}
   | _, _ => Failed Unavailable
   end, w).
Proof.
  intros Hr Hf. unfold get_metadata, guarded. rewrite Hr. simpl.
  unfold bind at 1. unfold hgetall. rewrite command_through by done. simpl.
  destruct w as [d t h fl]; simpl in *; subst.
  unfold bind, or_raise, ret.
  destruct (live_md t d !! "total_users") as [s|]; simpl;
    [destruct (int_of_str s); simpl|];
    (destruct (truthy (live_md t d !! "top_score")); simpl;
     [destruct (live_md t d !! "top_score") as [s'|]; simpl;
      [destruct (int_of_str s'); simpl|]|]); reflexivity.
Qed.

(** ** Frame rules: what a computation leaves as it was

    [P t d d'] relates the database before and after a computation running
    at instant [t]; it is closed under doing nothing and under sequencing. *)

Section frames.
Context (P : Z → redis_db → redis_db → Prop).
Abbreviation keeps := (keeps P).
Hypothesis P_refl : ∀ t d, P t d d.
Hypothesis P_trans : ∀ t d1 d2 d3, P t d1 d2 → P t d2 d3 → P t d1 d3.

Lemma keeps_ret {A} (a : A) : keeps (ret a).
Proof using P_refl. intros w r w' [= <- <-]. auto. Qed.

Lemma keeps_or_raise {A} (o : option A) : keeps (or_raise o).
Proof using P_refl. intros w r w'. unfold or_raise. destruct o; intros [= <- <-]; auto. Qed.

Lemma keeps_bind {A B} (c : io A) (k : A → io B) :
  keeps c → (∀ a, keeps (k a)) → keeps (bind c k).
Proof using P_trans.
  intros Hc Hk w r w'. unfold bind.
  destruct (c w) as [[a|] w1] eqn:Hcw.
  - intros Hkw. apply Hc in Hcw as (Ht & Hh & HP).
    apply Hk in Hkw as (Ht' & Hh' & HP').
    rewrite Ht in Ht', HP'. rewrite Hh in Hh'. eauto.
  - intros [= <- <-]. by apply Hc in Hcw.
Qed.

Lemma keeps_command {A} (f : Z → redis_db → outcome A * redis_db) :
  (∀ t d, P t d (f t d).2) → keeps (command f).
Proof using P_refl.
  intros Hf w r w' (Ht & Hh & _ & [[_ ->]|Hd])%command_frame;
    repeat split; auto.
  specialize (Hf (now w) (db w)). by rewrite Hd in Hf.
Qed.

Lemma keeps_guarded {A} (c : io A) w r w' :
  keeps c → guarded c w = (r, w') →
  now w' = now w ∧ redis w' = redis w ∧ P (now w) (db w) (db w').
Proof using P_refl.
  intros Hc. unfold guarded. destruct (negb (redis w)).
  - intros [= <- <-]. auto.
  - destruct (c w) as [[a|] w1] eqn:Hcw; intros [= <- <-]; by apply Hc in Hcw.
Qed.

(** The commands that only read. *)
Lemma keeps_zrevrank name : keeps (zrevrank name).
Proof using P_refl. apply keeps_command. intros; apply P_refl. Qed.
Lemma keeps_zscore name : keeps (zscore name).
Proof using P_refl. apply keeps_command. intros; apply P_refl. Qed.
Lemma keeps_zcard : keeps zcard.
Proof using P_refl. apply keeps_command. intros; apply P_refl. Qed.
Lemma keeps_zrevrange start stop : keeps (zrevrange start stop).
Proof using P_refl.
  apply keeps_command. intros t d; simpl.
  destruct (in_int64 start && in_int64 stop); apply P_refl.
Qed.
Lemma keeps_hgetall : keeps hgetall.
Proof using P_refl. apply keeps_command. intros; apply P_refl. Qed.

(** The three handlers that only read. *)
Lemma get_leaderboard_frame top w r w' :
  get_leaderboard top w = (r, w') →
  now w' = now w ∧ redis w' = redis w ∧ P (now w) (db w) (db w').
Proof using P_refl P_trans.
  apply keeps_guarded, keeps_bind; [apply keeps_zrevrange|].
  intros; apply keeps_ret.
Qed.

Lemma get_user_rank_frame name w r w' :
  get_user_rank name w = (r, w') →
  now w' = now w ∧ redis w' = redis w ∧ P (now w) (db w) (db w').
Proof using P_refl P_trans.
  apply keeps_guarded, keeps_bind; [apply keeps_zrevrank|].
  intros; apply keeps_bind; [apply keeps_zscore|].
  intros; apply keeps_ret.
Qed.

Lemma get_metadata_frame w r w' :
  get_metadata w = (r, w') →
  now w' = now w ∧ redis w' = redis w ∧ P (now w) (db w) (db w').
Proof using P_refl P_trans.
  apply keeps_guarded, keeps_bind; [apply keeps_hgetall|].
  intros meta; apply keeps_bind.
  { destruct (meta !! "total_users"); [apply keeps_or_raise|apply keeps_ret]. }
  intros; apply keeps_bind; [|intros; apply keeps_ret].
  destruct (truthy _); [|apply keeps_ret].
  destruct (meta !! "top_score"); [|apply keeps_ret].
  apply keeps_bind; [apply keeps_or_raise|intros; apply keeps_ret].
Qed.

End frames.

(** The handler and the task that write, given what their writes keep. *)
Section write_frames.
Context (P : Z → redis_db → redis_db → Prop).
Hypothesis P_refl : ∀ t d, P t d d.
Hypothesis P_trans : ∀ t d1 d2 d3, P t d1 d2 → P t d2 d3 → P t d1 d3.

Lemma update_score_frame update w r w' :
  (∀ t d x, strtod (score update) = Some x →
            P t d (added t d (username update) x)) →
  (∀ t d, lb_exists t d = true → P t d (refreshed t d)) →
  update_score update w = (r, w') →
  now w' = now w ∧ redis w' = redis w ∧ P (now w) (db w) (db w').
Proof using P_refl P_trans.
  intros Hadd Hexp.
  apply keeps_guarded; [done|].
  apply keeps_bind; [done| |].
  { apply keeps_command; [done|]. intros t d; simpl.
    destruct (strtod (score update)) eqn:Hx; simpl; [by apply Hadd|done]. }
  intros _. apply keeps_bind; [done| |].
  { apply keeps_command; [done|]. intros t d; simpl.
    destruct (lb_exists t d) eqn:He; [by apply Hexp|done]. }
  intros _. apply keeps_bind; [done|by apply keeps_zrevrank|].
  intros; apply keeps_bind; [done|by apply keeps_zscore|].
  intros; by apply keeps_ret.
Qed.

Lemma post_score_frame name f w r w' :
  (∀ t d x, P t d (added t d name x)) →
  (∀ t d, lb_exists t d = true → P t d (refreshed t d)) →
  post_score name f w = (r, w') →
  now w' = now w ∧ redis w' = redis w ∧ P (now w) (db w) (db w').
Proof using P_refl P_trans.
  intros Hadd Hexp. unfold post_score.
  destruct (validate_UserScoreUpdate name f) as [update|] eqn:Hv.
  - assert (username update = name) as Hn.
    { destruct f as [z|]; simpl in Hv; [|done].
      destruct (0 <=? z); by inversion Hv. }
    apply update_score_frame; [|done]. intros. rewrite Hn. apply Hadd.
  - intros [= <- <-]. auto.
Qed.

Lemma update_metadata_bg_task_frame w :
  (∀ t d mapping, P t d (published t d mapping)) →
  (∀ t d, md_exists t d = true → P t d (md_refreshed t d)) →
  now (update_metadata_bg_task w) = now w ∧
  redis (update_metadata_bg_task w) = redis w ∧
  P (now w) (db w) (db (update_metadata_bg_task w)).
Proof using P_refl P_trans.
  intros Hset Hexp. unfold update_metadata_bg_task.
  destruct (negb (redis w)); [auto|].
  match goal with |- context [snd (?c w)] => destruct (c w) as [r w'] eqn:Hc end.
  simpl. revert Hc. apply keeps_bind; [done|by apply keeps_zcard|].
  intros total. apply keeps_bind; [done|by apply keeps_zrevrange|].
  intros top_data. destruct top_data as [|e ?]; simpl.
  - apply keeps_bind; [done| |].
    { apply keeps_command; [done|]. intros; apply Hset. }
    intros _. apply keeps_command; [done|]. intros t d; simpl.
    destruct (md_exists t d) eqn:He; [by apply Hexp|done].
  - apply keeps_bind; [done| |].
    { apply keeps_command; [done|]. intros; apply Hset. }
    intros _. apply keeps_command; [done|]. intros t d; simpl.
    destruct (md_exists t d) eqn:He; [by apply Hexp|done].
Qed.
End write_frames.

(** ** Identities without an entry *)

Lemma live_lb_lookup_None t d name :
  lb_members d !! name = None → live_lb t d !! name = None.
Proof. unfold live_lb. by destruct (expired t (lb_expire d)). Qed.

Lemma step_keeps_absent name e w :
  ¬ submits_of name e →
  lb_members (db w) !! name = None →
  lb_members (db (step e w)) !! name = None.
Proof.
  set (P := λ (_ : Z) d d',
    lb_members d !! name = None → lb_members d' !! name = None).
  assert (∀ t d, P t d d) as Hrefl by (unfold P; auto).
  assert (∀ t d1 d2 d3, P t d1 d2 → P t d2 d3 → P t d1 d3) as Htrans
    by (unfold P; auto).
  intros Hne. destruct e as [n f|top|n| | |dt]; simpl.
  - destruct (post_score n f w) as [r w'] eqn:Hp; simpl.
    apply (post_score_frame P Hrefl Htrans) in Hp as (_ & _ & HP); [done| |].
    + intros t d x H; simpl. rewrite lookup_insert_ne by (simpl in Hne; congruence).
      by apply live_lb_lookup_None.
    + by intros t d _ H.
  - destruct (get_leaderboard top w) as [r w'] eqn:Hp; simpl.
    by apply (get_leaderboard_frame P Hrefl Htrans) in Hp as (_ & _ & HP).
  - destruct (get_user_rank n w) as [r w'] eqn:Hp; simpl.
    by apply (get_user_rank_frame P Hrefl Htrans) in Hp as (_ & _ & HP).
  - destruct (get_metadata w) as [r w'] eqn:Hp; simpl.
    by apply (get_metadata_frame P Hrefl Htrans) in Hp as (_ & _ & HP).
  - apply (update_metadata_bg_task_frame P Hrefl Htrans w); unfold P; auto.
  - done.
Qed.

Lemma run_keeps_absent name h w :
  Forall (λ e, ¬ submits_of name e) h →
  lb_members (db w) !! name = None →
  lb_members (db (run h w)) !! name = None.
Proof.
  unfold run. intros Hh. revert w. induction Hh as [|e h He Hh IH]; intros w Hw.
  - done.
  - simpl. apply IH. by apply step_keeps_absent.
Qed.

(** C7.  For an identity that was never submitted (no entry at the start and
    no submission of it in the history since), or when the leaderboard key
    has expired, the rank handler succeeds over a working connection and
    answers with the score and the rank both absent, leaving the process as
    it was. *)
Theorem get_user_rank_unranked (w0 : world) (h : list event) (name : string) :
  redis (run h w0) = true →
  faults (run h w0) = [] →
  (lb_members (db w0) !! name = None ∧ Forall (λ e, ¬ submits_of name e) h) ∨
  expired (now (run h w0)) (lb_expire (db (run h w0))) = true →
  get_user_rank name (run h w0) =
  (Ok {| rank_username := name; rank_score := None; rank_rank := None |},
   run h w0).
Proof.
  intros Hr Hf Hcase.
  assert (live_lb (now (run h w0)) (db (run h w0)) !! name = None) as Hnone.
  { destruct Hcase as [[H0 Hh]|Hexp].
    - apply live_lb_lookup_None. by apply run_keeps_absent.
    - by rewrite live_lb_expired. }
  rewrite get_user_rank_healthy by done.
  rewrite Hnone. apply zrevrank_of_None in Hnone. by rewrite Hnone.
Qed.

Lemma get_user_rank_unranked_witness :
  get_user_rank "dave"
    (run [Submit "alice" (IntScore 150); TopK 3; Tick] (started 0)) =
  (Ok {| rank_username := "dave"; rank_score := None; rank_rank := None |},
   run [Submit "alice" (IntScore 150); TopK 3; Tick] (started 0)).
Proof.
  apply (get_user_rank_unranked (started 0)
           [Submit "alice" (IntScore 150); TopK 3; Tick] "dave").
  - vm_compute. reflexivity.
  - vm_compute. reflexivity.
  - left. split; [reflexivity|].
    repeat constructor; simpl; [discriminate|tauto|tauto].
Defined.

(** ** Validation *)

Lemma validate_IntScore name s :
  0 ≤ s →
  validate_UserScoreUpdate name (IntScore s) = Some {| username := name; score := s |}.
Proof. intros Hs. simpl. by destruct (Z.leb_spec 0 s); [|lia]. Qed.

Lemma guarded_Failed {A} (c : io A) w e w' :
  guarded c w = (Failed e, w') → e = Unavailable.
Proof.
  unfold guarded. destruct (negb (redis w)); [by intros [= <- <-]|].
  by destruct (c w) as [[a|] w1]; intros [= <- <-].
Qed.

Lemma post_score_invalid (name : string) (f : score_field) (w : world) :
  (¬ ∃ z, f = IntScore z ∧ 0 ≤ z) →
  post_score name f w = (Failed InvalidScore, w).
Proof.
  intros Hbad. unfold post_score, validate_UserScoreUpdate.
  destruct f as [z|]; [|done].
  destruct (Z.leb_spec 0 z); [|done].
  exfalso. apply Hbad. eauto.
Qed.

Lemma post_score_valid_not_invalid (name : string) (z : Z) (w : world) :
  0 ≤ z → (post_score name (IntScore z) w).1 ≠ Failed InvalidScore.
Proof.
  intros Hz. unfold post_score. rewrite validate_IntScore by done.
  destruct (update_score _ w) as [[r|e] w'] eqn:Hu; simpl; [done|].
  apply guarded_Failed in Hu. by subst.
Qed.

(** C8, as the code has it.  A submission is rejected with [InvalidScore]
    exactly when the validation has no integer to work with or a negative
    one: the score is a negative integer, or it is not an integer and is
    either refused by the coercion or coerced to a negative integer.  The
    process, index included, is then exactly as before: no command is sent.
    A score that is not an integer but is coerced to a non-negative one is
    not rejected. *)
Theorem submit_score_invalid (name : string) (b : score_body) (w : world) :
  ((∀ z, integer_of b = Some z → z < 0) →
   submit_score name b w = (Failed InvalidScore, w)) ∧
  ((∃ z, integer_of b = Some z ∧ 0 ≤ z) →
   (submit_score name b w).1 ≠ Failed InvalidScore) ∧
  (∀ z, z < 0 → submit_score name (JsonInt z) w = (Failed InvalidScore, w)).
Proof.
  split; [|split].
  - intros Hneg. unfold submit_score, coerce. apply post_score_invalid.
    intros (z & Hf & Hz). destruct (integer_of b) as [z'|]; [|done].
    injection Hf as ->. specialize (Hneg z eq_refl). lia.
  - intros (z & Hb & Hz). unfold submit_score, coerce. rewrite Hb.
    by apply post_score_valid_not_invalid.
  - intros z Hz. unfold submit_score, coerce. simpl. apply post_score_invalid.
    intros (z' & [= <-] & Hz'). lia.
Qed.

Lemma submit_score_invalid_witness :
  submit_score "alice" (JsonOther (Some (-3))) scenario =
  (Failed InvalidScore, scenario).
Proof.
  destruct (submit_score_invalid "alice" (JsonOther (Some (-3))) scenario)
    as [Hrejected _].
  apply Hrejected. intros z Hz. injection Hz as <-. lia.
Defined.

(** The claim as the specification words it fails for a score that is not
    an integer and that the validation coerces to one, such as the string
    "7": the submission is accepted and the index gets the entry. *)
Lemma coerced_score_accepted :
  (submit_score "alice" (JsonOther (Some 7)) (started 0)).1 =
    Ok {| rank_username := "alice"; rank_score := Some 7; rank_rank := Some 1 |} ∧
  live_lb 0 (db (started 0)) !! "alice" = None ∧
  live_lb 0 (db (submit_score "alice" (JsonOther (Some 7)) (started 0)).2)
    !! "alice" = Some 7.
Proof. repeat split; vm_compute; reflexivity. Qed.

(** ** What [update_score] can do, whatever the connection does *)

Lemma zadd_inv name s w r w' :
  zadd name s w = (r, w') →
  now w' = now w ∧ redis w' = redis w ∧
  ((r = Raised ∧ db w' = db w) ∨
   ∃ x, strtod s = Some x ∧ r = Returned tt ∧ db w' = added (now w) (db w) name x).
Proof.
  intros (Ht & Hh & _ & [[-> Hd]|Hd])%command_frame; repeat split; auto.
  destruct (strtod s) as [x|] eqn:Hx; injection Hd as <- Hd; [right|left]; eauto.
Qed.

Lemma expire_leaderboard_inv w r w' :
  expire_leaderboard LEADERBOARD_EXPIRE w = (r, w') →
  now w' = now w ∧ redis w' = redis w ∧
  ((r = Raised ∧ db w' = db w) ∨
   (r = Returned tt ∧
    db w' = if lb_exists (now w) (db w) then refreshed (now w) (db w) else db w)).
Proof.
  intros (Ht & Hh & _ & [[-> Hd]|Hd])%command_frame; repeat split; auto.
  injection Hd as <- Hd. right. split; [done|]. rewrite <- Hd.
  by destruct (lb_exists _ _).
Qed.

Lemma zrevrank_inv name w r w' :
  zrevrank name w = (r, w') →
  now w' = now w ∧ redis w' = redis w ∧ db w' = db w ∧
  (r = Raised ∨ r = Returned (zrevrank_of (live_lb (now w) (db w)) name)).
Proof.
  intros (Ht & Hh & _ & [[-> Hd]|Hd])%command_frame; repeat split; auto.
  all: by injection Hd as <- Hd; auto.
Qed.

Lemma zscore_inv name w r w' :
  zscore name w = (r, w') →
  now w' = now w ∧ redis w' = redis w ∧ db w' = db w ∧
  (r = Raised ∨ r = Returned (live_lb (now w) (db w) !! name)).
Proof.
  intros (Ht & Hh & _ & [[-> Hd]|Hd])%command_frame; repeat split; auto.
  all: by injection Hd as <- Hd; auto.
Qed.

Lemma update_score_cases update w r w' :
  update_score update w = (r, w') →
  now w' = now w ∧ redis w' = redis w ∧
  ((r = Failed Unavailable ∧ db w' = db w) ∨
   ∃ x, strtod (score update) = Some x ∧
     ((r = Failed Unavailable ∧
       db w' = added (now w) (db w) (username update) x) ∨
      (r = Failed Unavailable ∧
       db w' = written (now w) (db w) (username update) x) ∨
      (r = Ok (accepted (now w) (db w) (username update) x) ∧
       db w' = written (now w) (db w) (username update) x))).
Proof.
  unfold update_score, guarded. destruct (redis w) eqn:Hh; simpl;
    [|intros [= <- <-]; auto].
  unfold bind at 1.
  destruct (zadd _ _ w) as [r1 w1] eqn:H1.
  apply zadd_inv in H1 as (Ht1 & Hh1 & [[-> Hd1]|(x & Hx & -> & Hd1)]).
  { intros [= <- <-]. split; [done|]. split; [congruence|]. auto. }
  unfold bind at 1.
  destruct (expire_leaderboard _ w1) as [r2 w2] eqn:H2.
  apply expire_leaderboard_inv in H2 as (Ht2 & Hh2 & [[-> Hd2]|[-> Hd2]]).
  { intros [= <- <-]. split; [congruence|]. split; [congruence|].
    right. exists x. split; [done|]. left. split; [done|]. congruence. }
  rewrite Ht1, Hd1, lb_exists_added, refreshed_added in Hd2.
  rewrite Ht1 in Ht2.
  unfold bind at 1.
  destruct (zrevrank _ w2) as [r3 w3] eqn:H3.
  apply zrevrank_inv in H3 as (Ht3 & Hh3 & Hd3 & Hr3).
  rewrite Ht2, Hd2, live_lb_written in Hr3. rewrite Ht2 in Ht3. rewrite Hd2 in Hd3.
  destruct Hr3 as [->| ->].
  { intros [= <- <-]. split; [congruence|]. split; [congruence|].
    right. exists x. auto. }
  unfold bind at 1.
  destruct (zscore _ w3) as [r4 w4] eqn:H4.
  apply zscore_inv in H4 as (Ht4 & Hh4 & Hd4 & Hr4).
  rewrite Ht3, Hd3, live_lb_written, lookup_insert_eq in Hr4.
  rewrite Ht3 in Ht4. rewrite Hd3 in Hd4.
  destruct Hr4 as [->| ->].
  { intros [= <- <-]. split; [congruence|]. split; [congruence|].
    right. exists x. auto. }
  unfold ret. intros [= <- <-]. split; [congruence|]. split; [congruence|].
  right. exists x. split; [done|]. right. right.
  split; [|done]. f_equal. unfold accepted.
  change (if x =? 0 then 0 else x) with (or_zero (Some x)).
  rewrite or_zero_Some. by destruct (zrevrank_of _ _).
Qed.


(** ** The reply of a successful submission *)

(** C10, as the code has it.  A submission of a non-negative integer [s]
    that succeeds answers with a present 1-based rank, between 1 and the
    number of participants, and with the score the sorted set holds: [s]
    rounded to the nearest double, which is [s] itself whenever [s] is at
    most 2^53. *)
Theorem post_score_reply (name : string) (s : Z) (w : world)
    (r : UserRankResponse) (w' : world) :
  0 ≤ s →
  post_score name (IntScore s) w = (Ok r, w') →
  rank_score r = Some (round_to_double s) ∧
  (s ≤ 2 ^ 53 → rank_score r = Some s) ∧
  ∃ k, rank_rank r = Some k ∧
       1 ≤ k ≤ Z.of_nat (size (live_lb (now w') (db w'))).
Proof.
  intros Hs. unfold post_score. rewrite validate_IntScore by done.
  intros (Ht & _ & [[[=] _]|(x & Hx & [[[=] _]|[[[=] _]|[[= ->] Hd]]])])%update_score_cases.
  simpl in *. apply strtod_Some in Hx as Hx'.
  split; [by rewrite Hx'|]. split.
  { intros Hle. by rewrite Hx', round_to_double_small. }
  rewrite Ht, Hd, live_lb_written.
  destruct (zrevrank_of_present (<[name:=x]> (live_lb (now w) (db w))) name x)
    as [k Hk]; [apply lookup_insert_eq|].
  exists (k + 1). rewrite Hk. split; [done|].
  apply zrevrank_of_bounds in Hk. lia.
Qed.

Lemma post_score_reply_witness :
  rank_score (accepted 0 empty_db "alice" 150) = Some (round_to_double 150) ∧
  (150 ≤ 2 ^ 53 → rank_score (accepted 0 empty_db "alice" 150) = Some 150) ∧
  ∃ k, rank_rank (accepted 0 empty_db "alice" 150) = Some k ∧
       1 ≤ k ≤ Z.of_nat (size (live_lb 0 (written 0 empty_db "alice" 150))).
Proof.
  apply (post_score_reply "alice" 150 (started 0)
           (accepted 0 empty_db "alice" 150)
           {| db := written 0 empty_db "alice" 150;
              now := 0; redis := true; faults := [] |}).
  - lia.
  - vm_compute. reflexivity.
Defined.

(** The claim as the specification words it fails at 2^53 + 1: the reply
    carries 2^53. *)
Lemma post_score_reply_inexact :
  ∃ r w', post_score "alice" (IntScore (2 ^ 53 + 1)) (started 0) = (Ok r, w') ∧
          rank_score r = Some (2 ^ 53) ∧
          rank_score r ≠ Some (2 ^ 53 + 1).
Proof.
  eexists _, _. split; [vm_compute; reflexivity|].
  split; [reflexivity|]. simpl. discriminate.
Qed.

(** ** Submitting twice *)

Lemma written_written t d name x :
  written t (written t d name x) name x = written t d name x.
Proof.
  unfold written at 1. rewrite live_lb_written. simpl.
  by rewrite insert_insert_eq.
Qed.

(** C9.  Over a working connection, submitting the same identity and score
    a second time gives the same reply as the first time and leaves the
    whole process, and with it every rank and every score of the index,
    exactly as the first submission left it. *)
Theorem post_score_idempotent (name : string) (f : score_field) (w : world) :
  faults w = [] →
  post_score name f (post_score name f w).2 = post_score name f w.
Proof.
  intros Hf. unfold post_score.
  destruct (validate_UserScoreUpdate name f) as [update|] eqn:Hv; [|done].
  destruct (redis w) eqn:Hr.
  - destruct (strtod (score update)) as [x|] eqn:Hx.
    + rewrite (update_score_healthy update w x) by done. simpl.
      rewrite (update_score_healthy update _ x) by done. simpl.
      by rewrite live_lb_written, insert_insert_eq, written_written.
    + rewrite (update_score_refused update w) by done. simpl.
      by rewrite (update_score_refused update w).
  - assert (update_score update w = (Failed Unavailable, w)) as Hno
      by (unfold update_score, guarded; by rewrite Hr).
    rewrite Hno. simpl. by rewrite Hno.
Qed.

Lemma post_score_idempotent_witness :
  post_score "alice" (IntScore 150) (post_score "alice" (IntScore 150) scenario).2 =
  post_score "alice" (IntScore 150) scenario.
Proof.
  apply (post_score_idempotent "alice" (IntScore 150) scenario).
  vm_compute. reflexivity.
Defined.

(** ** Windows of the enumeration *)

Lemma range_window_lookup {A} (start stop : Z) (l : list A) :
  ∃ o : nat, ∀ i e, range_window start stop l !! i = Some e → l !! (o + i)%nat = Some e.
Proof.
  unfold range_window.
  set (llen := Z.of_nat (length l)).
  set (s1 := if start <? 0 then llen + start else start).
  set (s2 := if s1 <? 0 then 0 else s1).
  set (e1 := if stop <? 0 then llen + stop else stop).
  destruct ((e1 <? s2) || (llen <=? s2)).
  - exists 0%nat. intros i e. by rewrite lookup_nil.
  - exists (Z.to_nat s2). intros i e [Hi _]%lookup_take_Some.
    by rewrite lookup_drop in Hi.
Qed.

Lemma range_window_beyond {A} (stop : Z) (l : list A) :
  Z.of_nat (length l) ≤ stop + 1 → 0 ≤ stop → range_window 0 stop l = l.
Proof.
  intros Hlen Hstop. unfold range_window.
  rewrite (proj2 (Z.ltb_ge stop 0)) by done.
  change (0 <? 0) with false. cbv iota zeta.
  change (0 <? 0) with false. cbv iota.
  rewrite (proj2 (Z.ltb_ge stop 0)) by done. rewrite orb_false_l.
  destruct (Z.leb_spec (Z.of_nat (length l)) 0) as [Hz|Hz].
  - destruct l; [done|simpl in Hz; lia].
  - rewrite drop_0. apply take_ge.
    destruct (Z.leb_spec (Z.of_nat (length l)) stop); lia.
Qed.

(** A stop index of -1 is the last element: the window is the whole list. *)
Lemma range_window_minus_one {A} (l : list A) : range_window 0 (-1) l = l.
Proof.
  unfold range_window.
  change (0 <? 0) with false. change (-1 <? 0) with true. cbv iota zeta.
  change (0 <? 0) with false. cbv iota.
  destruct (Z.leb_spec (Z.of_nat (length l)) 0) as [Hz|Hz].
  - destruct l; [|simpl in Hz; lia]. by rewrite orb_true_r.
  - rewrite (proj2 (Z.ltb_ge (Z.of_nat (length l) + -1) 0)) by lia.
    rewrite orb_false_l.
    rewrite drop_0. apply take_ge.
    destruct (Z.leb_spec (Z.of_nat (length l)) (Z.of_nat (length l) + -1)); lia.
Qed.

(** ** Ties *)

Lemma slt_alice_carol : slt "alice" "carol".
Proof. split; [exact I|discriminate]. Qed.

Lemma zrevrank_of_entry m u k x :
  zrevrank_of m u = Some k → m !! u = Some x →
  ∃ i, k = Z.of_nat i ∧ zrevrange_all m !! i = Some (u, x).
Proof.
  intros (i & y & -> & Hi)%zrevrank_of_Some Hx. exists i. split; [done|].
  pose proof (list_elem_of_lookup_2 _ _ _ Hi) as Hy.
  apply elem_of_zrevrange_all in Hy. congruence.
Qed.

(** C1, as the code has it.  Over a working connection: of two present
    identities with equal scores the lexicographically greater one has the
    smaller rank, and the top-K list gives entries of equal score in
    descending order of identity; after the submissions alice:150, bob:200,
    carol:150 the top 3 are (bob,200,1), (carol,150,2), (alice,150,3) and the
    rank of alice is (150, 3). *)
Theorem ties_by_identity_descending (w : world) :
  redis w = true →
  faults w = [] →
  (∀ a b s ra rb,
     slt a b →
     (get_user_rank a w).1 =
       Ok {| rank_username := a; rank_score := Some s; rank_rank := Some ra |} →
     (get_user_rank b w).1 =
       Ok {| rank_username := b; rank_score := Some s; rank_rank := Some rb |} →
     rb < ra) ∧
  (∀ top l i j ei ej,
     (get_leaderboard top w).1 = Ok l →
     (i < j)%nat → l !! i = Some ei → l !! j = Some ej →
     entry_score ei = entry_score ej →
     slt (entry_username ej) (entry_username ei)) ∧
  (get_leaderboard 3 scenario).1 =
    Ok [ {| entry_username := "bob"; entry_score := 200; entry_rank := 1 |};
         {| entry_username := "carol"; entry_score := 150; entry_rank := 2 |};
         {| entry_username := "alice"; entry_score := 150; entry_rank := 3 |} ] ∧
  (get_user_rank "alice" scenario).1 =
    Ok {| rank_username := "alice"; rank_score := Some 150; rank_rank := Some 3 |}.
Proof.
  intros Hr Hf. split; [|split; [|split; vm_compute; reflexivity]].
  - intros a b s ra rb [Hab Hne].
    rewrite !get_user_rank_healthy by done. simpl.
    set (m := live_lb (now w) (db w)).
    intros [= Hsa Hra] [= Hsb Hrb].
    apply fmap_Some in Hsa as (xa & Hxa & ->).
    apply fmap_Some in Hsb as (xb & Hxb & Hxab). unfold int_of_float in Hxab. subst xb.
    apply fmap_Some in Hra as (ka & Hka & ->).
    apply fmap_Some in Hrb as (kb & Hkb & ->).
    destruct (zrevrank_of_entry _ _ _ _ Hka Hxa) as (i & -> & Hi).
    destruct (zrevrank_of_entry _ _ _ _ Hkb Hxb) as (j & -> & Hj).
    unfold int_of_float in *.
    destruct (lt_eq_lt_dec i j) as [[Hlt| ->]|Hgt]; [| |lia].
    + destruct (zrevrange_all_ordered m i j _ _ Hlt Hi Hj) as [[Hz|[_ Hz]] _];
        simpl in Hz; [lia|].
      exfalso. apply Hne. by apply (anti_symm String.le).
    + exfalso. apply Hne. congruence.
  - intros top l i j ei ej Hok.
    pose proof (get_leaderboard_Ok_in_range top w l Hr Hf Hok) as Hin.
    revert Hok. rewrite get_leaderboard_healthy by done. simpl.
    intros [= <-] Hij.
    rewrite !list_lookup_imap.
    destruct (range_window_lookup 0 (top - 1)
                (zrevrange_all (live_lb (now w) (db w)))) as [o Ho].
    intros (a & Ha & ->)%fmap_Some (b & Hb & ->)%fmap_Some. simpl.
    unfold int_of_float. intros Heq.
    apply Ho in Ha, Hb.
    destruct (zrevrange_all_ordered (live_lb (now w) (db w))
                (o + i) (o + j) a b) as [Hz Hne]; [lia|done|done|].
    split; [|congruence].
    destruct Hz as [Hz|[_ Hz]]; [lia|done].
Qed.

Lemma ties_by_identity_descending_witness :
  redis scenario = true ∧ faults scenario = [] ∧ slt "alice" "carol" ∧ 2 < 3.
Proof.
  split; [reflexivity|]. split; [reflexivity|]. split; [exact slt_alice_carol|].
  destruct (ties_by_identity_descending scenario eq_refl eq_refl) as [Hrank _].
  apply (Hrank "alice" "carol" 150 3 2 slt_alice_carol); vm_compute; reflexivity.
Defined.

(** The claim as the specification words it fails on its own scenario:
    carol, not alice, is second. *)
Lemma ties_ascending_refuted :
  (get_leaderboard 3 scenario).1 ≠
    Ok [ {| entry_username := "bob"; entry_score := 200; entry_rank := 1 |};
         {| entry_username := "alice"; entry_score := 150; entry_rank := 2 |};
         {| entry_username := "carol"; entry_score := 150; entry_rank := 3 |} ] ∧
  (get_user_rank "alice" scenario).1 ≠
    Ok {| rank_username := "alice"; rank_score := Some 150; rank_rank := Some 2 |}.
Proof. split; vm_compute; discriminate. Qed.

(** ** Top-K with a count that is not positive *)

Lemma get_leaderboard_beyond top w :
  redis w = true → faults w = [] → in_int64 (top - 1) = true →
  Z.of_nat (size (live_lb (now w) (db w))) < top →
  get_leaderboard top w = (Ok (ranked (zrevrange_all (live_lb (now w) (db w)))), w).
Proof.
  intros Hr Hf Hin Htop. rewrite get_leaderboard_healthy by done.
  rewrite range_window_beyond; [done| |lia].
  rewrite length_zrevrange_all. lia.
Qed.

Lemma get_leaderboard_zero w :
  redis w = true → faults w = [] →
  get_leaderboard 0 w = (Ok (ranked (zrevrange_all (live_lb (now w) (db w)))), w).
Proof.
  intros Hr Hf. rewrite get_leaderboard_healthy by done.
  change (0 - 1) with (-1). by rewrite range_window_minus_one.
Qed.

(** C3, where the code departs from it.  On the index of the scenario
    (alice:150, bob:200, carol:150) a top-K request with [k = 0] does not
    answer with an empty list but with all three entries, and [k = -1]
    answers with all but the last; only from [k = -3] down is the answer
    empty.  With [k = 4], above the participant count, the answer is the
    whole index. *)
Theorem get_leaderboard_nonpositive_scenario :
  (get_leaderboard 0 scenario).1 =
    Ok [ {| entry_username := "bob"; entry_score := 200; entry_rank := 1 |};
         {| entry_username := "carol"; entry_score := 150; entry_rank := 2 |};
         {| entry_username := "alice"; entry_score := 150; entry_rank := 3 |} ] ∧
  (get_leaderboard (-1) scenario).1 =
    Ok [ {| entry_username := "bob"; entry_score := 200; entry_rank := 1 |};
         {| entry_username := "carol"; entry_score := 150; entry_rank := 2 |} ] ∧
  (get_leaderboard (-3) scenario).1 = Ok [] ∧
  (get_leaderboard 4 scenario).1 = (get_leaderboard 0 scenario).1.
Proof. repeat split; vm_compute; reflexivity. Qed.

(** ** The scheduler *)

Lemma call_times_loop t n :
  call_times t (loop 30 n) = (λ k, t + 30 * Z.of_nat k) <$> seq 0 n.
Proof.
  revert t. induction n as [|n IH]; intros t; [done|].
  simpl loop. simpl call_times. rewrite IH.
  change (seq 0 (S n)) with (0%nat :: seq 1 n).
  rewrite fmap_cons. f_equal; [lia|].
  rewrite <- fmap_S_seq, <- list_fmap_compose.
  apply list_fmap_ext. intros _ k _. simpl. lia.
Qed.

Lemma now_update_metadata_bg_task w : now (update_metadata_bg_task w) = now w.
Proof.
  by apply (update_metadata_bg_task_frame (λ _ _ _, True)).
Qed.

Lemma now_run_loop n w :
  now (run_schedule (loop 30 n) w) = now w + 30 * Z.of_nat n.
Proof.
  unfold run_schedule. revert w. induction n as [|n IH]; intros w; simpl; [lia|].
  rewrite IH. simpl. rewrite now_update_metadata_bg_task. lia.
Qed.

(** C4, as the code has it.  With [wait_first=True] the scheduler waits
    before its first computation, under either reading of [wait_first]: a
    full 30-second period where it is a flag, one second where it is the
    delay.  Counted from a start at [t], the computations of the first [n]
    rounds fire at [t + d], [t + d + 30], ..., [t + d + 30 (n - 1)] with [d]
    that first delay, for every [n]; the first action of the schedule is the
    sleep; and the clock of the process after [n] rounds stands
    [d + 30 n] seconds later. *)
Theorem schedule_waits_first (r : release) (t : Z) (n : nat) (w : world) :
  0 < first_delay r ∧
  call_times t (update_metadata_schedule r n) =
    (λ k, t + first_delay r + 30 * Z.of_nat k) <$> seq 0 n ∧
  head (update_metadata_schedule r n) = Some (Sleep (first_delay r)) ∧
  now (run_schedule (update_metadata_schedule r n) w) =
    now w + first_delay r + 30 * Z.of_nat n.
Proof.
  unfold update_metadata_schedule, repeat_every.
  split; [by destruct r|]. split; [|split; [by destruct r|]].
  - destruct r; simpl; rewrite call_times_loop; apply list_fmap_ext;
      intros _ k _; lia.
  - unfold run_schedule.
    destruct r; simpl;
      match goal with
      | |- context [foldl ?f ?w0 (loop 30 n)] =>
          change (foldl f w0 (loop 30 n)) with (run_schedule (loop 30 n) w0)
      end; rewrite now_run_loop; simpl; lia.
Qed.

(** The claim as the specification words it fails under either reading of
    [wait_first]: counted from a start at 0, the first computation fires at
    30 or at 1, not at 0. *)
Lemma first_call_not_at_startup :
  (head (call_times 0 (update_metadata_schedule FlagWaitFirst 1)) = Some 30 ∧
   head (call_times 0 (update_metadata_schedule FlagWaitFirst 1)) ≠ Some 0) ∧
  (head (call_times 0 (update_metadata_schedule DelayWaitFirst 1)) = Some 1 ∧
   head (call_times 0 (update_metadata_schedule DelayWaitFirst 1)) ≠ Some 0).
Proof. repeat split; try reflexivity; simpl; discriminate. Qed.

(** ** The snapshot *)

Lemma md_exists_published t d mapping :
  mapping ≠ [] → md_exists t (published t d mapping) = true.
Proof.
  intros Hm. unfold md_exists, live_md, published; simpl.
  apply bool_decide_eq_true.
  assert (foldr (λ kv h, <[kv.1:=kv.2]> h) (live_md t d) mapping ≠ ∅) as Hne.
  { destruct mapping as [|kv mapping]; [done|]. simpl. apply insert_non_empty. }
  destruct (md_exists t d) eqn:He; simpl; [|done].
  unfold md_exists in He. apply bool_decide_eq_true in He.
  unfold live_md in He. by destruct (expired t (md_expire d)).
Qed.

Lemma update_metadata_bg_task_healthy w :
  redis w = true → faults w = [] →
  update_metadata_bg_task w =
  {| db := md_refreshed (now w)
             (published (now w) (db w) (snapshot_of (live_lb (now w) (db w))));
     now := now w; redis := true; faults := [] |}.
Proof.
  intros Hr Hf. unfold update_metadata_bg_task. rewrite Hr. simpl.
  unfold bind at 1. unfold zcard. rewrite command_through by done. simpl.
  unfold bind at 1. unfold zrevrange. rewrite command_through by done.
  cbn [fst snd db now redis faults].
  pose proof (md_exists_published (now w) (db w)
                (snapshot_of (live_lb (now w) (db w)))) as Hex.
  unfold snapshot_of in *.
  destruct (range_window 0 0 (zrevrange_all (live_lb (now w) (db w))))
    as [|e ?]; specialize (Hex ltac:(done)); unfold published in *;
    simpl in *; rewrite Hex, Hr; reflexivity.
Qed.

(** C6, where the code departs from it.  After a scheduler tick that runs
    over a working connection while the index is empty, the metadata
    handler answers with a participant count of 0 and an absent leading
    score, but the leading identity is present: it is the empty string.
    The guard that turns the empty string into an absent value is applied to
    [top_score] only. *)
Theorem empty_index_snapshot (w : world) :
  redis w = true →
  faults w = [] →
  live_lb (now w) (db w) = ∅ →
  (get_metadata (update_metadata_bg_task w)).1 =
    Ok {| total_users := 0; top_score := None; top_user := Some "" |}.
Proof.
  intros Hr Hf Hempty.
  rewrite update_metadata_bg_task_healthy by done.
  rewrite get_metadata_healthy by done. simpl.
  rewrite Hempty.
  assert (live_md (now w)
            (md_refreshed (now w) (published (now w) (db w) (snapshot_of ∅))) =
          <["total_users" := "0"]>
            (<["top_score" := ""]> (<["top_user" := ""]> (live_md (now w) (db w)))))
    as ->.
  { unfold live_md at 1. simpl.
    pose proof LEADERBOARD_EXPIRE_pos.
    by destruct (Z.ltb_spec (now w + LEADERBOARD_EXPIRE) (now w)); [lia|]. }
  rewrite lookup_insert_eq.
  rewrite (lookup_insert_ne _ "total_users" "top_score") by done.
  rewrite lookup_insert_eq.
  rewrite (lookup_insert_ne _ "total_users" "top_user") by done.
  rewrite (lookup_insert_ne _ "top_score" "top_user") by done.
  rewrite lookup_insert_eq. reflexivity.
Qed.

Lemma empty_index_snapshot_witness :
  (get_metadata (update_metadata_bg_task (started 0))).1 =
    Ok {| total_users := 0; top_score := None; top_user := Some "" |}.
Proof.
  apply (empty_index_snapshot (started 0)); reflexivity.
Defined.

(** ** Failures *)


Lemma update_score_no_handle update w :
  redis w = false → update_score update w = (Failed Unavailable, w).
Proof. intros Hr. unfold update_score, guarded. by rewrite Hr. Qed.

Lemma update_score_first_fault update w :
  head (faults w) = Some false → db (update_score update w).2 = db w.
Proof.
  intros Hf. unfold update_score, guarded.
  destruct (redis w); simpl; [|done].
  unfold bind at 1. unfold zadd, command.
  destruct (faults w) as [|[] fl]; simpl in *; try discriminate. done.
Qed.

Lemma reads_leave_db w :
  (∀ top, db (get_leaderboard top w).2 = db w) ∧
  (∀ name, db (get_user_rank name w).2 = db w) ∧
  db (get_metadata w).2 = db w.
Proof.
  set (P := λ (_ : Z) (d d' : redis_db), d' = d).
  assert (∀ t d, P t d d) as Hrefl by done.
  assert (∀ t d1 d2 d3, P t d1 d2 → P t d2 d3 → P t d1 d3) as Htrans
    by (unfold P; congruence).
  repeat split.
  - intros top. destruct (get_leaderboard top w) as [r w'] eqn:Hg.
    by apply (get_leaderboard_frame P Hrefl Htrans) in Hg as (_ & _ & ->).
  - intros name. destruct (get_user_rank name w) as [r w'] eqn:Hg.
    by apply (get_user_rank_frame P Hrefl Htrans) in Hg as (_ & _ & ->).
  - destruct (get_metadata w) as [r w'] eqn:Hg.
    by apply (get_metadata_frame P Hrefl Htrans) in Hg as (_ & _ & ->).
Qed.

Lemma live_md_same t d d' :
  md_fields d' = md_fields d → md_expire d' = md_expire d →
  live_md t d' = live_md t d.
Proof. unfold live_md. by intros -> ->. Qed.

(** C5, as the code has it.  A submission that fails tells the caller
    [InvalidScore], and then nothing at all has changed, or [Unavailable].
    In the latter case the snapshot is as before, and the index is either
    as before or already holds the submitted score (the write had gone
    through when the store became unavailable); it is as before whenever the
    handle is absent or the very first command fails.  The three read
    handlers never change the database, failing or not.  And once the
    connection works again, a submission made after the failure goes
    through and is answered with its stored score and rank. *)
Theorem failed_submission (w : world) (name : string) (f : score_field)
    (e : failure) (w' : world) :
  post_score name f w = (Failed e, w') →
  ((e = InvalidScore ∧ w' = w) ∨
   (e = Unavailable ∧
    live_md (now w') (db w') = live_md (now w) (db w) ∧
    (live_lb (now w') (db w') = live_lb (now w) (db w) ∨
     ∃ z x, f = IntScore z ∧ strtod z = Some x ∧
            live_lb (now w') (db w') = <[name := x]> (live_lb (now w) (db w))) ∧
    (redis w = false ∨ head (faults w) = Some false → db w' = db w))) ∧
  ((∀ top, db (get_leaderboard top w).2 = db w) ∧
   (∀ n, db (get_user_rank n w).2 = db w) ∧
   db (get_metadata w).2 = db w) ∧
  (∀ s x, redis w = true → 0 ≤ s → strtod s = Some x →
     (post_score name (IntScore s) (restored w')).1 =
       Ok (accepted (now w') (db w') name x)).
Proof.
  intros Hp. split; [|split; [apply reads_leave_db|]].
  - unfold post_score in Hp.
    destruct (validate_UserScoreUpdate name f) as [update|] eqn:Hv;
      [|injection Hp as <- <-; by left].
    right.
    assert (f = IntScore (score update) ∧ username update = name) as [Hfz Hn].
    { destruct f as [z|]; simpl in Hv; [|done].
      destruct (0 <=? z); by inversion Hv. }
    split; [by apply guarded_Failed in Hp|].
    pose proof (update_score_first_fault update w) as Hfirst.
    pose proof (update_score_no_handle update w) as Hnone.
    rewrite Hp in Hfirst, Hnone. simpl in Hfirst.
    apply update_score_cases in Hp
      as (Ht & Hh & [[_ Hd]|(x & Hx & [[_ Hd]|[[_ Hd]|[[=] _]]])]).
    + rewrite Ht, Hd. split; [done|]. split; [by left|].
      intros [Hr|Hf]; auto.
    + rewrite Ht, Hd, Hn, live_lb_added. split; [by apply live_md_same|].
      split; [right; eauto|].
      intros [Hr|Hf]; [|rewrite <- Hn, <- Hd; auto].
      apply Hnone in Hr. injection Hr as _ Hw. subst w'. congruence.
    + rewrite Ht, Hd, Hn, live_lb_written. split; [by apply live_md_same|].
      split; [right; eauto|].
      intros [Hr|Hf]; [|rewrite <- Hn, <- Hd; auto].
      apply Hnone in Hr. injection Hr as _ Hw. subst w'. congruence.
  - intros s x Hr Hs Hx. unfold post_score. rewrite validate_IntScore by done.
    assert (redis w' = redis w) as Hh.
    { unfold post_score in Hp.
      destruct (validate_UserScoreUpdate name f) as [update|];
        [by apply update_score_cases in Hp as (_ & ? & _)|].
      by injection Hp as <- <-. }
    rewrite (update_score_healthy _ (restored w') x);
      [reflexivity|simpl; congruence|reflexivity|exact Hx].
Qed.

(** The claim as the specification words it fails when the store becomes
    unavailable right after the write: the caller is told [Unavailable] and
    the index has changed. *)
Lemma failed_submission_writes :
  (post_score "alice" (IntScore 150) outage_after_write).1 = Failed Unavailable ∧
  live_lb 0 (db outage_after_write) !! "alice" = None ∧
  live_lb 0 (db (post_score "alice" (IntScore 150) outage_after_write).2)
    !! "alice" = Some 150 ∧
  db (post_score "alice" (IntScore 150) outage_after_write).2 ≠
    db outage_after_write.
Proof.
  repeat split; try (vm_compute; reflexivity).
  intros Heq. apply (f_equal (λ d, lb_members d !! "alice")) in Heq.
  vm_compute in Heq. discriminate.
Qed.

Lemma failed_submission_witness :
  live_md 0 (added 0 empty_db "alice" 150) = live_md 0 empty_db ∧
  (post_score "alice" (IntScore 150)
     (restored {| db := added 0 empty_db "alice" 150; now := 0;
                  redis := true; faults := [] |})).1 =
    Ok (accepted 0 (added 0 empty_db "alice" 150) "alice" 150).
Proof.
  destruct (failed_submission outage_after_write
              "alice" (IntScore 150) Unavailable
              {| db := added 0 empty_db "alice" 150; now := 0;
                 redis := true; faults := [] |})
    as (Hcase & _ & Hnext).
  - vm_compute. reflexivity.
  - split.
    + destruct Hcase as [[Hbad _]|(_ & Hmd & _)]; [discriminate Hbad|exact Hmd].
    + apply Hnext; [reflexivity|lia|vm_compute; reflexivity].
Defined.

(** ** Reading back the last submission *)

Lemma step_healthy e w :
  faults w = [] → faults (step e w) = [] ∧ redis (step e w) = redis w.
Proof.
  intros Hf. destruct (redis w) eqn:Hr.
  - destruct e as [n f|top|n| | |dt]; simpl.
    + unfold post_score. destruct (validate_UserScoreUpdate n f) as [update|]; [|done].
      destruct (strtod (score update)) as [x|] eqn:Hx.
      * by rewrite (update_score_healthy update w x).
      * by rewrite (update_score_refused update w).
    + destruct (in_int64 (top - 1)) eqn:Hin.
      * by rewrite get_leaderboard_healthy.
      * by rewrite get_leaderboard_out_of_range.
    + by rewrite get_user_rank_healthy.
    + by rewrite get_metadata_healthy.
    + by rewrite update_metadata_bg_task_healthy.
    + done.
  - destruct e as [n f|top|n| | |dt]; simpl;
      unfold post_score, update_score, get_leaderboard, get_user_rank,
        get_metadata, update_metadata_bg_task, guarded;
      rewrite ?Hr; simpl; try done.
    by destruct (validate_UserScoreUpdate n f).
Qed.

Lemma run_healthy h w :
  faults w = [] → faults (run h w) = [] ∧ redis (run h w) = redis w.
Proof.
  unfold run. revert w. induction h as [|e h IH]; intros w Hf; [done|].
  simpl. destruct (step_healthy e w Hf) as [Hf' Hr'].
  destruct (IH _ Hf') as [? ?]. split; [done|congruence].
Qed.

Lemma holds_entry_live name x B t d :
  holds_entry name x B d → t ≤ B →
  live_lb t d = lb_members d ∧ lb_exists t d = true.
Proof.
  intros [Hx (e & He & HB)] Ht.
  assert (live_lb t d = lb_members d) as Hlive.
  { unfold live_lb. rewrite He. simpl.
    by destruct (Z.ltb_spec e t); [lia|]. }
  split; [done|]. unfold lb_exists. rewrite Hlive.
  apply bool_decide_eq_true. intros Hempty.
  by rewrite Hempty, lookup_empty in Hx.
Qed.

Lemma step_keeps_entry name x B e w :
  ¬ submits_of name e →
  B - LEADERBOARD_EXPIRE ≤ now w ≤ B →
  holds_entry name x B (db w) →
  holds_entry name x B (db (step e w)) ∧ now (step e w) = now w + duration e.
Proof.
  set (P := λ (t : Z) (d d' : redis_db),
    B - LEADERBOARD_EXPIRE ≤ t ≤ B → holds_entry name x B d → holds_entry name x B d').
  assert (∀ t d, P t d d) as Hrefl by (unfold P; auto).
  assert (∀ t d1 d2 d3, P t d1 d2 → P t d2 d3 → P t d1 d3) as Htrans
    by (unfold P; auto).
  assert (∀ t d, lb_exists t d = true → P t d (refreshed t d)) as Hexp.
  { intros t d _ Ht [Hx _]. split; [done|]. simpl. eexists; split; [done|lia]. }
  intros Hne Ht Hd. destruct e as [n f|top|n| | |dt]; simpl.
  - destruct (post_score n f w) as [r w'] eqn:Hp; simpl.
    apply (post_score_frame P Hrefl Htrans) in Hp as (-> & _ & HP);
      [split; [auto|lia]| |done].
    intros t d y Ht' Hd'.
    destruct (holds_entry_live name x B t d Hd') as [Hlive Hex]; [lia|].
    destruct Hd' as [Hx He]. split; simpl.
    + rewrite Hlive, lookup_insert_ne by (simpl in Hne; congruence). done.
    + by rewrite Hex.
  - destruct (get_leaderboard top w) as [r w'] eqn:Hp; simpl.
    apply (get_leaderboard_frame P Hrefl Htrans) in Hp as (-> & _ & HP).
    split; [auto|lia].
  - destruct (get_user_rank n w) as [r w'] eqn:Hp; simpl.
    apply (get_user_rank_frame P Hrefl Htrans) in Hp as (-> & _ & HP).
    split; [auto|lia].
  - destruct (get_metadata w) as [r w'] eqn:Hp; simpl.
    apply (get_metadata_frame P Hrefl Htrans) in Hp as (-> & _ & HP).
    split; [auto|lia].
  - destruct (update_metadata_bg_task_frame P Hrefl Htrans w) as (-> & _ & HP);
      [by intros t d mapping _ Hd'|by intros t d _ _ Hd'|].
    split; [auto|lia].
  - done.
Qed.

Lemma elapsed_cons e h : elapsed (e :: h) = duration e + elapsed h.
Proof. unfold elapsed. simpl. by destruct e. Qed.

Lemma elapsed_nonneg h : 0 ≤ elapsed h.
Proof.
  induction h as [|e h IH]; [done|]. rewrite elapsed_cons.
  destruct e; simpl; lia.
Qed.

Lemma run_keeps_entry name x B h w :
  Forall (λ e, ¬ submits_of name e) h →
  B - LEADERBOARD_EXPIRE ≤ now w →
  now w + elapsed h ≤ B →
  holds_entry name x B (db w) →
  holds_entry name x B (db (run h w)) ∧ now (run h w) ≤ B.
Proof.
  unfold run. intros Hh. revert w.
  induction Hh as [|e h He Hh IH]; intros w Hlo Hhi Hd; simpl.
  - rewrite Z.add_0_r in Hhi. done.
  - rewrite elapsed_cons in Hhi.
    pose proof (elapsed_nonneg h).
    assert (0 ≤ duration e) by (destruct e; simpl; lia).
    destruct (step_keeps_entry name x B e w He) as [Hd' Ht']; [lia|done|].
    apply IH; [lia|lia|done].
Qed.

(** C2, as the code has it.  Over a working connection, take any history
    in which the last submission for an identity carries the non-negative
    score [s], accepted by the store as the double [x], and is followed only
    by events that are not submissions for that identity and that let at
    most the retention time elapse.  Then the rank handler answers with a
    present rank and with the score [x], which is [s] rounded to the nearest
    double, and is [s] itself whenever [s] is at most 2^53. *)
Theorem last_submission_read (w : world) (before after : list event)
    (name : string) (s x : Z) :
  redis w = true →
  faults w = [] →
  0 ≤ s →
  strtod s = Some x →
  Forall (λ e, ¬ submits_of name e) after →
  elapsed after ≤ LEADERBOARD_EXPIRE →
  (∃ k, (get_user_rank name
           (run (before ++ Submit name (IntScore s) :: after) w)).1 =
        Ok {| rank_username := name; rank_score := Some x; rank_rank := Some k |}) ∧
  x = round_to_double s ∧
  (s ≤ 2 ^ 53 → x = s).
Proof.
  intros Hr Hf Hs Hx Hafter Hel.
  split; [|split; [by apply strtod_Some|]].
  2:{ intros Hle. apply strtod_Some in Hx. by rewrite Hx, round_to_double_small. }
  unfold run. rewrite foldl_app. simpl.
  fold (run before w). set (w1 := run before w).
  destruct (run_healthy before w Hf) as [Hf1 Hr1]. fold w1 in Hf1, Hr1.
  rewrite Hr in Hr1.
  unfold post_score. rewrite validate_IntScore by done.
  rewrite (update_score_healthy _ w1 x) by done. simpl.
  set (w2 := {| db := written (now w1) (db w1) name x;
                now := now w1; redis := true; faults := [] |}).
  fold (run after w2).
  destruct (run_healthy after w2 eq_refl) as [Hf3 Hr3]. simpl in Hr3.
  destruct (run_keeps_entry name x (now w1 + LEADERBOARD_EXPIRE) after w2)
    as [Hd3 Ht3]; [done|simpl; lia|simpl; lia| |].
  { split; simpl; [apply lookup_insert_eq|]. eexists; split; [done|lia]. }
  rewrite get_user_rank_healthy by done. simpl.
  destruct (holds_entry_live _ _ _ (now (run after w2)) _ Hd3 Ht3) as [Hlive _].
  destruct Hd3 as [Hx3 _]. rewrite Hlive, Hx3.
  destruct (zrevrank_of_present _ _ _ Hx3) as [k Hk]. rewrite Hk.
  by exists (k + 1).
Qed.

Lemma last_submission_read_witness :
  (∃ k, (get_user_rank "alice"
           (run ([Submit "alice" (IntScore 100)] ++
                 Submit "alice" (IntScore 150) ::
                 [Submit "bob" (IntScore 200); Elapse 3600; Tick]) (started 0))).1 =
        Ok {| rank_username := "alice"; rank_score := Some 150;
              rank_rank := Some k |}) ∧
  150 = round_to_double 150 ∧
  (150 ≤ 2 ^ 53 → 150 = 150).
Proof.
  apply (last_submission_read (started 0) [Submit "alice" (IntScore 100)]
           [Submit "bob" (IntScore 200); Elapse 3600; Tick] "alice" 150 150).
  - reflexivity.
  - reflexivity.
  - lia.
  - vm_compute. reflexivity.
  - repeat constructor; simpl; [discriminate|tauto|tauto].
  - vm_compute. discriminate.
Defined.

(** The claim as the specification words it fails for a score that is not
    a double: after a single submission of 2^53 + 1 the rank handler answers
    with 2^53. *)
Lemma last_submission_rounded :
  (get_user_rank "alice"
     (run [Submit "alice" (IntScore (2 ^ 53 + 1))] (started 0))).1 =
    Ok {| rank_username := "alice"; rank_score := Some (2 ^ 53);
          rank_rank := Some 1 |} ∧
  rank_score {| rank_username := "alice"; rank_score := Some (2 ^ 53);
                rank_rank := Some 1 |} ≠ Some (2 ^ 53 + 1).
Proof. split; [vm_compute; reflexivity|]. simpl. discriminate. Qed.

(** * Further properties of the handlers *)

(** ** The rows of a top-K request *)

Lemma range_window_prefix {A} (top : Z) (l : list A) :
  range_window 0 (top - 1) l = take (rows_for top (Z.of_nat (length l))) l.
Proof.
  unfold rows_for. destruct (Z.leb_spec 1 top) as [Htop|Htop].
  - destruct (Z.le_gt_cases (Z.of_nat (length l)) top) as [Hall|Hsome].
    + rewrite range_window_beyond by lia. symmetry. apply take_ge. lia.
    + unfold range_window.
      change (0 <? 0) with false. cbv iota zeta.
      change (0 <? 0) with false. cbv iota.
      rewrite (proj2 (Z.ltb_ge (top - 1) 0)) by lia.
      rewrite (proj2 (Z.ltb_ge (top - 1) 0)) by lia.
      rewrite (proj2 (Z.leb_gt (Z.of_nat (length l)) 0)) by lia.
      rewrite (proj2 (Z.leb_gt (Z.of_nat (length l)) (top - 1))) by lia.
      simpl. rewrite drop_0. f_equal. lia.
  - unfold range_window.
    change (0 <? 0) with false. cbv iota zeta.
    change (0 <? 0) with false. cbv iota.
    rewrite (proj2 (Z.ltb_lt (top - 1) 0)) by lia.
    destruct (Z.ltb_spec (Z.of_nat (length l) + (top - 1)) 0) as [Hneg|Hpos].
    + simpl. replace (Z.to_nat (Z.of_nat (length l) + top)) with 0%nat by lia.
      by rewrite take_0.
    + rewrite (proj2 (Z.leb_gt (Z.of_nat (length l)) 0)) by lia.
      rewrite (proj2 (Z.leb_gt (Z.of_nat (length l))
                        (Z.of_nat (length l) + (top - 1)))) by lia.
      simpl. rewrite drop_0. f_equal. lia.
Qed.

Lemma get_leaderboard_rows (top : Z) (w : world) :
  redis w = true →
  faults w = [] →
  in_int64 (top - 1) = true →
  get_leaderboard top w =
  (Ok (ranked (take (rows_for top (Z.of_nat (size (live_lb (now w) (db w)))))
                    (zrevrange_all (live_lb (now w) (db w))))), w).
Proof.
  intros Hr Hf Hin. rewrite get_leaderboard_healthy by done.
  by rewrite range_window_prefix, length_zrevrange_all.
Qed.

Lemma in_int64_pred top : in_int64 (top - 1) = true ↔ - 2 ^ 63 < top ≤ 2 ^ 63.
Proof.
  unfold in_int64. change (2 ^ 63) with 9223372036854775808.
  rewrite andb_true_iff, !Z.leb_le. lia.
Qed.

(** X1.  Over a working connection a top-K request whose stop index
    [top - 1] is a signed 64-bit integer answers with a prefix of the
    descending enumeration, ranked from 1: the first [top] rows when [top]
    is at least 1, and the rows but the last [-top] ones when [top] is 0 or
    negative.  For any other [top] the store refuses the index and the
    request fails with [Unavailable].  Either way the process is as before. *)
Theorem get_leaderboard_prefix (top : Z) (w : world) :
  redis w = true →
  faults w = [] →
  (- 2 ^ 63 < top ≤ 2 ^ 63 →
   get_leaderboard top w =
   (Ok (ranked (take (rows_for top (Z.of_nat (size (live_lb (now w) (db w)))))
                     (zrevrange_all (live_lb (now w) (db w))))), w)) ∧
  (top ≤ - 2 ^ 63 ∨ 2 ^ 63 < top →
   get_leaderboard top w = (Failed Unavailable, w)).
Proof.
  intros Hr Hf. split.
  - intros Hin%in_int64_pred. by apply get_leaderboard_rows.
  - intros Hout. apply get_leaderboard_out_of_range; [done|done|].
    destruct (in_int64 (top - 1)) eqn:Hin; [|done].
    apply in_int64_pred in Hin. lia.
Qed.

Lemma get_leaderboard_prefix_witness :
  (- 2 ^ 63 < 2 ≤ 2 ^ 63 →
   get_leaderboard 2 scenario =
   (Ok (ranked (take (rows_for 2 (Z.of_nat (size (live_lb (now scenario) (db scenario)))))
                     (zrevrange_all (live_lb (now scenario) (db scenario))))),
    scenario)) ∧
  (2 ≤ - 2 ^ 63 ∨ 2 ^ 63 < 2 →
   get_leaderboard 2 scenario = (Failed Unavailable, scenario)).
Proof.
  apply (get_leaderboard_prefix 2 scenario); reflexivity.
Defined.

Lemma ranked_lookup res i e :
  ranked res !! i = Some e ↔
  ∃ u x, res !! i = Some (u, x) ∧
         e = {| entry_username := u; entry_score := x;
                entry_rank := Z.of_nat i + 1 |}.
Proof.
  unfold ranked. rewrite list_lookup_imap, fmap_Some. split.
  - intros ([u x] & Hi & ->). eauto.
  - intros (u & x & Hi & ->). eauto.
Qed.

(** X2.  The list a top-K request answers with, over a working connection
    and for [top] at least 1, has [min top count] entries; the entry at
    position [i] carries rank [i + 1]; and scores never increase down the
    list. *)
Theorem get_leaderboard_shape (top : Z) (w : world) (l : list LeaderboardEntry) :
  redis w = true →
  faults w = [] →
  1 ≤ top →
  (get_leaderboard top w).1 = Ok l →
  Z.of_nat (length l) = Z.min top (Z.of_nat (size (live_lb (now w) (db w)))) ∧
  (∀ i e, l !! i = Some e → entry_rank e = Z.of_nat i + 1) ∧
  (∀ i j ei ej, (i < j)%nat → l !! i = Some ei → l !! j = Some ej →
                entry_score ej ≤ entry_score ei).
Proof.
  intros Hr Hf Htop Hok.
  pose proof (get_leaderboard_Ok_in_range top w l Hr Hf Hok) as Hin.
  revert Hok. rewrite get_leaderboard_rows by done. simpl.
  intros [= <-]. set (m := live_lb (now w) (db w)).
  split; [|split].
  - unfold ranked. rewrite length_imap, length_take, length_zrevrange_all.
    unfold rows_for. rewrite (proj2 (Z.leb_le 1 top)) by done. lia.
  - intros i e (u & x & _ & ->)%ranked_lookup. done.
  - intros i j ei ej Hij (u & x & Hi & ->)%ranked_lookup
      (v & y & Hj & ->)%ranked_lookup. simpl.
    apply lookup_take_Some in Hi as [Hi _]. apply lookup_take_Some in Hj as [Hj _].
    destruct (zrevrange_all_ordered m i j _ _ Hij Hi Hj) as [[Hz|[Hz _]] _];
      simpl in Hz; lia.
Qed.

Lemma get_leaderboard_shape_witness :
  Z.of_nat (length (ranked (take 2 (zrevrange_all (live_lb 0 (db scenario)))))) =
    Z.min 2 (Z.of_nat (size (live_lb (now scenario) (db scenario)))).
Proof.
  apply (get_leaderboard_shape 2 scenario
           (ranked (take 2 (zrevrange_all (live_lb 0 (db scenario)))))).
  - reflexivity.
  - reflexivity.
  - lia.
  - vm_compute. reflexivity.
Defined.

(** X3.  A top-K request for more rows than there are participants, over a
    working connection, lists every participant exactly once and with the
    score the index holds: no identity appears twice, and an identity and
    score are in the list exactly when they are in the index. *)
Theorem get_leaderboard_complete (top : Z) (w : world) (l : list LeaderboardEntry) :
  redis w = true →
  faults w = [] →
  Z.of_nat (size (live_lb (now w) (db w))) < top →
  (get_leaderboard top w).1 = Ok l →
  NoDup (entry_username <$> l) ∧
  (∀ u x, live_lb (now w) (db w) !! u = Some x ↔
          ∃ e, e ∈ l ∧ entry_username e = u ∧ entry_score e = x).
Proof.
  intros Hr Hf Htop Hok.
  pose proof (get_leaderboard_Ok_in_range top w l Hr Hf Hok) as Hin.
  revert Hok. rewrite get_leaderboard_beyond by done. simpl.
  intros [= <-]. set (m := live_lb (now w) (db w)).
  split.
  - assert (entry_username <$> ranked (zrevrange_all m) = (zrevrange_all m).*1) as ->.
    { apply list_eq. intros i. rewrite !list_lookup_fmap. unfold ranked.
      rewrite list_lookup_imap. by destruct (zrevrange_all m !! i). }
    unfold zrevrange_all. rewrite fmap_reverse, reverse_Permutation.
    apply zrange_all_NoDup_fst.
  - intros u x. rewrite <- elem_of_zrevrange_all. split.
    + intros [i Hi]%list_elem_of_lookup.
      exists {| entry_username := u; entry_score := x; entry_rank := Z.of_nat i + 1 |}.
      split; [|done]. apply list_elem_of_lookup. exists i.
      apply ranked_lookup. eauto.
    + intros (e & [i Hi]%list_elem_of_lookup & <- & <-).
      apply ranked_lookup in Hi as (u & x & Hi & ->). simpl.
      by eapply list_elem_of_lookup_2.
Qed.

Lemma get_leaderboard_complete_witness :
  NoDup (entry_username <$> ranked (zrevrange_all (live_lb 0 (db scenario)))).
Proof.
  apply (get_leaderboard_complete 10 scenario
           (ranked (zrevrange_all (live_lb 0 (db scenario))))).
  - reflexivity.
  - reflexivity.
  - vm_compute. reflexivity.
  - vm_compute. reflexivity.
Defined.

(** ** Ranks *)

Lemma get_user_rank_present name w s k :
  redis w = true → faults w = [] →
  (get_user_rank name w).1 =
    Ok {| rank_username := name; rank_score := Some s; rank_rank := Some k |} →
  ∃ i, k = Z.of_nat i + 1 ∧
       zrevrange_all (live_lb (now w) (db w)) !! i = Some (name, s).
Proof.
  intros Hr Hf. rewrite get_user_rank_healthy by done. simpl.
  intros [= Hs Hk].
  apply fmap_Some in Hs as (x & Hx & ->).
  apply fmap_Some in Hk as (k0 & Hk0 & ->).
  destruct (zrevrank_of_entry _ _ _ _ Hk0 Hx) as (i & -> & Hi).
  exists i. done.
Qed.

(** X4.  Over a working connection, ranks follow scores and tell identities
    apart: of two present identities the one with the strictly higher score
    has the strictly smaller rank, two different identities never share a
    rank, and every rank lies between 1 and the participant count. *)
Theorem ranks_follow_scores (w : world) (a b : string) (sa sb ra rb : Z) :
  redis w = true →
  faults w = [] →
  (get_user_rank a w).1 =
    Ok {| rank_username := a; rank_score := Some sa; rank_rank := Some ra |} →
  (get_user_rank b w).1 =
    Ok {| rank_username := b; rank_score := Some sb; rank_rank := Some rb |} →
  (sb < sa → ra < rb) ∧
  (a ≠ b → ra ≠ rb) ∧
  1 ≤ ra ≤ Z.of_nat (size (live_lb (now w) (db w))).
Proof.
  intros Hr Hf Ha Hb.
  destruct (get_user_rank_present a w sa ra Hr Hf Ha) as (i & -> & Hi).
  destruct (get_user_rank_present b w sb rb Hr Hf Hb) as (j & -> & Hj).
  set (m := live_lb (now w) (db w)) in *.
  split; [|split].
  - intros Hlt. destruct (lt_eq_lt_dec i j) as [[Hij| ->]|Hji]; [lia| |].
    + rewrite Hi in Hj. injection Hj as -> ->. lia.
    + destruct (zrevrange_all_ordered m j i _ _ Hji Hj Hi) as [[Hz|[Hz _]] _];
        simpl in Hz; lia.
  - intros Hne Heq. assert (i = j) as -> by lia.
    rewrite Hi in Hj. by injection Hj as -> ->.
  - apply lookup_lt_Some in Hi. rewrite length_zrevrange_all in Hi. lia.
Qed.

Lemma ranks_follow_scores_witness :
  (150 < 200 → 1 < 3) ∧ ("bob" ≠ "alice" → 1 ≠ 3) ∧
  1 ≤ 1 ≤ Z.of_nat (size (live_lb (now scenario) (db scenario))).
Proof.
  apply (ranks_follow_scores scenario "bob" "alice" 200 150 1 3);
    vm_compute; reflexivity.
Defined.

(** X5.  The rank handler and the top-K handler agree: over a working
    connection, when an identity has score [s] and rank [k], every top-K
    list of at least [k] rows has that identity, with score [s] and rank
    [k], at its [k]-th place. *)
Theorem rank_is_place_in_leaderboard (w : world) (name : string) (s k top : Z)
    (l : list LeaderboardEntry) :
  redis w = true →
  faults w = [] →
  (get_user_rank name w).1 =
    Ok {| rank_username := name; rank_score := Some s; rank_rank := Some k |} →
  k ≤ top →
  (get_leaderboard top w).1 = Ok l →
  l !! Z.to_nat (k - 1) =
    Some {| entry_username := name; entry_score := s; entry_rank := k |}.
Proof.
  intros Hr Hf Hrank Htop.
  destruct (get_user_rank_present name w s k Hr Hf Hrank) as (i & -> & Hi).
  intros Hok.
  pose proof (get_leaderboard_Ok_in_range top w l Hr Hf Hok) as Hin.
  revert Hok. rewrite get_leaderboard_rows by done. simpl. intros [= <-].
  replace (Z.to_nat (Z.of_nat i + 1 - 1)) with i by lia.
  apply ranked_lookup. exists name, s. split; [|done].
  rewrite lookup_take_lt; [done|].
  unfold rows_for. rewrite (proj2 (Z.leb_le 1 top)) by lia. lia.
Qed.

Lemma rank_is_place_in_leaderboard_witness :
  ranked (take 3 (zrevrange_all (live_lb 0 (db scenario)))) !! Z.to_nat (3 - 1) =
    Some {| entry_username := "alice"; entry_score := 150; entry_rank := 3 |}.
Proof.
  apply (rank_is_place_in_leaderboard scenario "alice" 150 3 3
           (ranked (take 3 (zrevrange_all (live_lb 0 (db scenario)))))).
  - reflexivity.
  - reflexivity.
  - vm_compute. reflexivity.
  - lia.
  - vm_compute. reflexivity.
Defined.

Lemma filter_ahead_of_place (l : list (string * Z)) i a :
  (∀ j b, (j < i)%nat → l !! j = Some b → ahead_of a b) →
  (∀ j b, (i ≤ j)%nat → l !! j = Some b → ¬ ahead_of a b) →
  (i ≤ length l)%nat →
  length (filter (ahead_of a) l) = i.
Proof.
  revert i. induction l as [|b l IH]; intros i Hlo Hhi Hlen.
  - simpl in Hlen. rewrite filter_nil. simpl. lia.
  - destruct i as [|i].
    + rewrite filter_cons_False by (apply (Hhi 0%nat); [lia|done]).
      apply IH; [intros; lia| |lia].
      intros j c _ Hc. apply (Hhi (S j)); [lia|done].
    + rewrite filter_cons_True by (apply (Hlo 0%nat); [lia|done]).
      simpl. f_equal. apply IH; [| |simpl in Hlen; lia].
      * intros j c Hj Hc. apply (Hlo (S j)); [lia|done].
      * intros j c Hj Hc. apply (Hhi (S j)); [lia|done].
Qed.

(** X6.  Over a working connection the rank of a present identity is one
    more than the number of participants that stand strictly ahead of it:
    those with a higher score, and those with the same score and a greater
    identity. *)
Theorem rank_counts_those_ahead (w : world) (name : string) (s k : Z) :
  redis w = true →
  faults w = [] →
  (get_user_rank name w).1 =
    Ok {| rank_username := name; rank_score := Some s; rank_rank := Some k |} →
  k = 1 + Z.of_nat (length (filter (ahead_of (name, s))
                              (map_to_list (live_lb (now w) (db w))))).
Proof.
  intros Hr Hf Hrank.
  destruct (get_user_rank_present name w s k Hr Hf Hrank) as (i & -> & Hi).
  set (m := live_lb (now w) (db w)) in *.
  assert (filter (ahead_of (name, s)) (map_to_list m) ≡ₚ
          filter (ahead_of (name, s)) (zrevrange_all m)) as ->.
  { apply filter_Permutation. unfold zrevrange_all.
    by rewrite reverse_Permutation, zrange_all_perm. }
  rewrite (filter_ahead_of_place (zrevrange_all m) i); [lia| | |].
  - intros j b Hj Hb.
    destruct (zrevrange_all_ordered m j i _ _ Hj Hb Hi) as [Hz Hne].
    split; [done|]. intros <-. done.
  - intros j b Hj Hb [Hz Hne].
    destruct (decide (j = i)) as [->|Hji]; [congruence|].
    destruct (zrevrange_all_ordered m i j _ _ ltac:(lia) Hi Hb) as [Hz' _].
    apply Hne. by apply (anti_symm zle).
  - apply lookup_lt_Some in Hi. lia.
Qed.

Lemma rank_counts_those_ahead_witness :
  3 = 1 + Z.of_nat (length (filter (ahead_of ("alice", 150))
                              (map_to_list (live_lb (now scenario) (db scenario))))).
Proof.
  apply (rank_counts_those_ahead scenario "alice" 150 3); vm_compute; reflexivity.
Defined.

(** ** Submissions *)

(** X7.  The reply of a successful submission is what the rank handler
    answers right afterwards, once the connection carries commands: same
    identity, same score, same rank. *)
Theorem reply_is_rank_afterwards (name : string) (f : score_field) (w : world)
    (r : UserRankResponse) (w' : world) :
  post_score name f w = (Ok r, w') →
  (get_user_rank name (restored w')).1 = Ok r.
Proof.
  unfold post_score.
  destruct (validate_UserScoreUpdate name f) as [update|] eqn:Hv; [|done].
  assert (username update = name) as Hn.
  { destruct f as [z|]; simpl in Hv; [|done].
    destruct (0 <=? z); by inversion Hv. }
  intros Hp.
  assert (redis w = true) as Hr.
  { unfold update_score, guarded in Hp. destruct (redis w); [done|].
    simpl in Hp. discriminate. }
  apply update_score_cases in Hp
    as (Ht & Hh & [[[=] _]|(x & Hx & [[[=] _]|[[[=] _]|[[= ->] Hd]]])]).
  rewrite get_user_rank_healthy; [|simpl; congruence|done]. simpl.
  rewrite Ht, Hd, Hn, live_lb_written, lookup_insert_eq. reflexivity.
Qed.

Lemma reply_is_rank_afterwards_witness :
  (get_user_rank "alice"
     (restored {| db := written 0 empty_db "alice" 150;
                  now := 0; redis := true; faults := [] |})).1 =
  Ok (accepted 0 empty_db "alice" 150).
Proof.
  apply (reply_is_rank_afterwards "alice" (IntScore 150) (started 0)).
  vm_compute. reflexivity.
Defined.

Lemma post_score_live_lb name f w r w' :
  post_score name f w = (r, w') →
  now w' = now w ∧
  (live_lb (now w') (db w') = live_lb (now w) (db w) ∨
   ∃ x, live_lb (now w') (db w') = <[name := x]> (live_lb (now w) (db w))).
Proof.
  unfold post_score.
  destruct (validate_UserScoreUpdate name f) as [update|] eqn:Hv;
    [|intros [= <- <-]; auto].
  assert (username update = name) as Hn.
  { destruct f as [z|]; simpl in Hv; [|done].
    destruct (0 <=? z); by inversion Hv. }
  intros (Ht & _ & [[_ Hd]|(x & _ & [[_ Hd]|[[_ Hd]|[_ Hd]]])])%update_score_cases;
    split; try done; rewrite Ht, Hd, ?Hn, ?live_lb_added, ?live_lb_written; eauto.
Qed.

(** X8.  A submission for one identity, whatever its outcome and whatever
    the connection does, leaves the score of every other identity as it
    was; and the number of participants afterwards is the number before, or
    one more, one more only if the identity had no entry. *)
Theorem submission_spares_others (name : string) (f : score_field) (w : world)
    (r : reply UserRankResponse) (w' : world) :
  post_score name f w = (r, w') →
  (∀ other, other ≠ name →
     live_lb (now w') (db w') !! other = live_lb (now w) (db w) !! other) ∧
  (size (live_lb (now w') (db w')) = size (live_lb (now w) (db w)) ∨
   (live_lb (now w) (db w) !! name = None ∧
    size (live_lb (now w') (db w')) = S (size (live_lb (now w) (db w))))).
Proof.
  intros (_ & [Hsame|[x Hins]])%post_score_live_lb.
  - rewrite Hsame. auto.
  - rewrite Hins. split.
    + intros other Hne. by rewrite lookup_insert_ne.
    + destruct (live_lb (now w) (db w) !! name) as [y|] eqn:Hy.
      * left. by rewrite map_size_insert_Some.
      * right. split; [done|]. by rewrite map_size_insert_None.
Qed.

Lemma submission_spares_others_witness :
  live_lb (now scenario) (db (post_score "dave" (IntScore 10) scenario).2) !! "alice" =
  live_lb (now scenario) (db scenario) !! "alice".
Proof.
  destruct (submission_spares_others "dave" (IntScore 10) scenario
              (post_score "dave" (IntScore 10) scenario).1
              (post_score "dave" (IntScore 10) scenario).2) as [Hothers _].
  - by destruct (post_score "dave" (IntScore 10) scenario).
  - apply (Hothers "alice"). discriminate.
Defined.

(** ** Retention *)

Lemma live_lb_advance dt w : live_lb (now (advance dt w)) (db (advance dt w)) =
                             live_lb (now w + Z.max 0 dt) (db w).
Proof. reflexivity. Qed.

(** X9.  After a submission that succeeded at some instant, with nothing
    else happening, the entry is served for the 86400 seconds that follow
    and for no longer: up to that delay the rank handler answers with the
    stored score, past it the rank handler answers with absent fields and
    every top-K request the store takes (stop index [top - 1] a signed
    64-bit integer) with an empty list. *)
Theorem entry_lives_a_day (name : string) (s x dt : Z) (w : world) :
  redis w = true →
  faults w = [] →
  0 ≤ s →
  strtod s = Some x →
  (dt ≤ LEADERBOARD_EXPIRE →
   ∃ k, (get_user_rank name (advance dt (post_score name (IntScore s) w).2)).1 =
        Ok {| rank_username := name; rank_score := Some x; rank_rank := Some k |}) ∧
  (LEADERBOARD_EXPIRE < dt →
   (get_user_rank name (advance dt (post_score name (IntScore s) w).2)).1 =
     Ok {| rank_username := name; rank_score := None; rank_rank := None |} ∧
   ∀ top, - 2 ^ 63 < top ≤ 2 ^ 63 →
          (get_leaderboard top (advance dt (post_score name (IntScore s) w).2)).1 =
          Ok []).
Proof.
  intros Hr Hf Hs Hx. unfold post_score. rewrite validate_IntScore by done.
  rewrite (update_score_healthy _ w x) by done. cbn [fst snd username].
  set (w1 := {| db := written (now w) (db w) name x;
                now := now w; redis := true; faults := [] |}).
  split.
  - intros Hdt. rewrite get_user_rank_healthy by done.
    rewrite live_lb_advance. simpl.
    assert (live_lb (now w + Z.max 0 dt) (written (now w) (db w) name x) =
            <[name := x]> (live_lb (now w) (db w))) as ->.
    { unfold live_lb at 1, written, expired. cbn [lb_expire lb_members].
      pose proof LEADERBOARD_EXPIRE_pos.
      by destruct (Z.ltb_spec (now w + LEADERBOARD_EXPIRE) (now w + Z.max 0 dt));
        [lia|]. }
    rewrite lookup_insert_eq.
    destruct (zrevrank_of_present (<[name:=x]> (live_lb (now w) (db w))) name x)
      as [k ->]; [apply lookup_insert_eq|].
    by exists (k + 1).
  - intros Hdt.
    assert (live_lb (now w + Z.max 0 dt) (written (now w) (db w) name x) = ∅)
      as Hgone.
    { unfold live_lb, written, expired. cbn [lb_expire lb_members].
      by destruct (Z.ltb_spec (now w + LEADERBOARD_EXPIRE) (now w + Z.max 0 dt));
        [|lia]. }
    split.
    + rewrite get_user_rank_healthy by done. rewrite live_lb_advance. simpl.
      rewrite Hgone, lookup_empty.
      by rewrite (proj2 (zrevrank_of_None ∅ name)) by apply lookup_empty.
    + intros top Hin%in_int64_pred. rewrite get_leaderboard_rows by done.
      rewrite live_lb_advance. simpl. rewrite Hgone.
      unfold zrevrange_all. rewrite zrange_all_empty.
      by rewrite reverse_nil, take_nil.
Qed.

Lemma entry_lives_a_day_witness :
  (86401 ≤ LEADERBOARD_EXPIRE →
   ∃ k, (get_user_rank "alice"
           (advance 86401 (post_score "alice" (IntScore 150) (started 0)).2)).1 =
        Ok {| rank_username := "alice"; rank_score := Some 150;
              rank_rank := Some k |}) ∧
  (LEADERBOARD_EXPIRE < 86401 →
   (get_user_rank "alice"
      (advance 86401 (post_score "alice" (IntScore 150) (started 0)).2)).1 =
     Ok {| rank_username := "alice"; rank_score := None; rank_rank := None |} ∧
   ∀ top, - 2 ^ 63 < top ≤ 2 ^ 63 →
          (get_leaderboard top
             (advance 86401 (post_score "alice" (IntScore 150) (started 0)).2)).1 =
          Ok []).
Proof.
  apply (entry_lives_a_day "alice" 150 150 86401 (started 0)).
  - reflexivity.
  - reflexivity.
  - lia.
  - vm_compute. reflexivity.
Defined.

Lemma zrevrange_all_singleton u x : zrevrange_all {[u := x]} = [(u, x)].
Proof.
  unfold zrevrange_all, zrange_all. by rewrite map_to_list_singleton.
Qed.

(** X10.  A submission that succeeds once the leaderboard key has expired
    starts the index afresh: it is answered with rank 1, and afterwards a
    top-K request for at least one row (and at most 2^63, so that the store
    takes the stop index) lists that identity alone, whoever was ranked
    before. *)
Theorem expired_index_starts_afresh (name : string) (s x top : Z) (w : world) :
  redis w = true →
  faults w = [] →
  0 ≤ s →
  strtod s = Some x →
  expired (now w) (lb_expire (db w)) = true →
  1 ≤ top ≤ 2 ^ 63 →
  (post_score name (IntScore s) w).1 =
    Ok {| rank_username := name; rank_score := Some x; rank_rank := Some 1 |} ∧
  (get_leaderboard top (post_score name (IntScore s) w).2).1 =
    Ok [ {| entry_username := name; entry_score := x; entry_rank := 1 |} ].
Proof.
  intros Hr Hf Hs Hx Hexp Htop.
  assert (in_int64 (top - 1) = true) as Hin
    by (apply in_int64_pred; change (2 ^ 63) with 9223372036854775808 in *; lia).
  unfold post_score.
  rewrite validate_IntScore by done.
  rewrite (update_score_healthy _ w x) by done. cbn [fst snd username].
  rewrite (live_lb_expired _ _ Hexp).
  change (<[name:=x]> (∅ : gmap string Z)) with ({[name := x]} : gmap string Z).
  assert (zrevrank_of {[name := x]} name = Some 0) as Hzero.
  { apply zrevrank_of_Some. exists 0%nat, x.
    by rewrite zrevrange_all_singleton. }
  split; [by rewrite Hzero|].
  rewrite get_leaderboard_rows by done. simpl.
  rewrite live_lb_written, (live_lb_expired _ _ Hexp).
  change (<[name:=x]> (∅ : gmap string Z)) with ({[name := x]} : gmap string Z).
  rewrite zrevrange_all_singleton, map_size_singleton.
  unfold rows_for. rewrite (proj2 (Z.leb_le 1 top)) by lia.
  rewrite take_ge by (simpl; lia). reflexivity.
Qed.

Lemma expired_index_starts_afresh_witness :
  (post_score "dave" (IntScore 7) (advance 90000 scenario)).1 =
    Ok {| rank_username := "dave"; rank_score := Some 7; rank_rank := Some 1 |} ∧
  (get_leaderboard 10 (post_score "dave" (IntScore 7) (advance 90000 scenario)).2).1 =
    Ok [ {| entry_username := "dave"; entry_score := 7; entry_rank := 1 |} ].
Proof.
  apply (expired_index_starts_afresh "dave" 7 7 10 (advance 90000 scenario)).
  - reflexivity.
  - reflexivity.
  - lia.
  - vm_compute. reflexivity.
  - vm_compute. reflexivity.
  - split; [lia|]. vm_compute. discriminate.
Defined.

(** ** The snapshot *)

Lemma int_of_str_of_int z : int_of_str (str_of_int z) = Some z.
Proof.
  unfold int_of_str, str_of_int.
  assert (NilZero.int_of_string (NilZero.string_of_int (Z.to_int z)) =
          Some (Z.to_int z)) as Hisi.
  { apply NilZero.isi; destruct z; simpl; try discriminate;
      intros [= H]; by apply DecimalPos.Unsigned.to_uint_nonnil in H. }
  destruct (NilZero.string_of_int (Z.to_int z)) eqn:Hs; [done|].
  rewrite Hisi. simpl. f_equal. apply DecimalZ.of_to.
Qed.

Lemma truthy_str_of_int z : truthy (Some (str_of_int z)) = true.
Proof.
  pose proof (int_of_str_of_int z) as H. unfold int_of_str in H.
  by destruct (str_of_int z).
Qed.

Lemma live_md_published t d mapping :
  mapping ≠ [] →
  live_md t (md_refreshed t (published t d mapping)) =
  foldr (λ kv h, <[kv.1 := kv.2]> h) (live_md t d) mapping.
Proof.
  intros _. unfold live_md at 1, md_refreshed, expired. cbn [md_expire md_fields published].
  pose proof LEADERBOARD_EXPIRE_pos.
  by destruct (Z.ltb_spec (t + LEADERBOARD_EXPIRE) t); [lia|].
Qed.

(** X11.  After a scheduler tick over a working connection, the metadata
    handler reports what the top-1 request reports: when the leaderboard's
    first row is [(u, s, 1)], the snapshot read back has the participant
    count of the index, leading score [s] and leading identity [u]. *)
Theorem snapshot_agrees_with_top (w : world) (u : string) (s : Z) :
  redis w = true →
  faults w = [] →
  (get_leaderboard 1 w).1 =
    Ok [ {| entry_username := u; entry_score := s; entry_rank := 1 |} ] →
  (get_metadata (update_metadata_bg_task w)).1 =
    Ok {| total_users := Z.of_nat (size (live_lb (now w) (db w)));
          top_score := Some s;
          top_user := Some u |}.
Proof.
  intros Hr Hf. rewrite get_leaderboard_healthy by done. cbn [fst].
  intros Htop.
  rewrite update_metadata_bg_task_healthy by done.
  rewrite get_metadata_healthy by done. cbn [fst now db].
  rewrite live_md_published by done.
  unfold snapshot_of. change (1 - 1) with 0 in Htop.
  destruct (range_window 0 0 (zrevrange_all (live_lb (now w) (db w))))
    as [|[v y] rest]; [done|].
  unfold int_of_float in *. simpl in Htop. injection Htop as -> -> _.
  cbn [foldr fst snd].
  rewrite lookup_insert_eq.
  rewrite (lookup_insert_ne _ "total_users" "top_score") by done.
  rewrite lookup_insert_eq.
  rewrite (lookup_insert_ne _ "total_users" "top_user") by done.
  rewrite (lookup_insert_ne _ "top_score" "top_user") by done.
  rewrite lookup_insert_eq.
  rewrite !int_of_str_of_int, truthy_str_of_int. reflexivity.
Qed.

Lemma snapshot_agrees_with_top_witness :
  (get_metadata (update_metadata_bg_task scenario)).1 =
    Ok {| total_users := Z.of_nat (size (live_lb (now scenario) (db scenario)));
          top_score := Some 200;
          top_user := Some "bob" |}.
Proof.
  apply (snapshot_agrees_with_top scenario "bob" 200).
  - reflexivity.
  - reflexivity.
  - vm_compute. reflexivity.
Defined.

(** X12.  The snapshot a tick publishes over a working connection is served
    unchanged for the 86400 seconds that follow; once more time than that
    has passed without a tick, the metadata handler answers with a count of
    0 and both leading fields absent. *)
Theorem snapshot_lives_a_day (w : world) (dt : Z) :
  redis w = true →
  faults w = [] →
  (dt ≤ LEADERBOARD_EXPIRE →
   (get_metadata (advance dt (update_metadata_bg_task w))).1 =
   (get_metadata (update_metadata_bg_task w)).1) ∧
  (LEADERBOARD_EXPIRE < dt →
   (get_metadata (advance dt (update_metadata_bg_task w))).1 =
   Ok {| total_users := 0; top_score := None; top_user := None |}).
Proof.
  intros Hr Hf. rewrite update_metadata_bg_task_healthy by done.
  set (d := published (now w) (db w) (snapshot_of (live_lb (now w) (db w)))).
  rewrite !get_metadata_healthy by done. cbn [fst now db advance].
  split; intros Hdt.
  - assert (live_md (now w + Z.max 0 dt) (md_refreshed (now w) d) =
            live_md (now w) (md_refreshed (now w) d)) as ->; [|done].
    unfold live_md, md_refreshed, expired. cbn [md_expire md_fields].
    pose proof LEADERBOARD_EXPIRE_pos.
    destruct (Z.ltb_spec (now w + LEADERBOARD_EXPIRE) (now w + Z.max 0 dt)); [lia|].
    by destruct (Z.ltb_spec (now w + LEADERBOARD_EXPIRE) (now w)); [lia|].
  - assert (live_md (now w + Z.max 0 dt) (md_refreshed (now w) d) = ∅) as ->.
    { unfold live_md, md_refreshed, expired. cbn [md_expire md_fields].
      by destruct (Z.ltb_spec (now w + LEADERBOARD_EXPIRE) (now w + Z.max 0 dt));
        [|lia]. }
    reflexivity.
Qed.

Lemma snapshot_lives_a_day_witness :
  (3600 ≤ LEADERBOARD_EXPIRE →
   (get_metadata (advance 3600 (update_metadata_bg_task scenario))).1 =
   (get_metadata (update_metadata_bg_task scenario)).1) ∧
  (LEADERBOARD_EXPIRE < 3600 →
   (get_metadata (advance 3600 (update_metadata_bg_task scenario))).1 =
   Ok {| total_users := 0; top_score := None; top_user := None |}).
Proof.
  apply (snapshot_lives_a_day scenario 3600); reflexivity.
Defined.

(** X13.  A submission never touches the snapshot and a tick never touches
    the index, whatever their outcome and whatever the connection does: the
    metadata hash and its expiry are the same after [post_score], the
    sorted set and its expiry are the same after [update_metadata_bg_task]. *)
Theorem writers_keep_to_their_key (name : string) (f : score_field) (w : world) :
  (md_fields (db (post_score name f w).2) = md_fields (db w) ∧
   md_expire (db (post_score name f w).2) = md_expire (db w)) ∧
  (lb_members (db (update_metadata_bg_task w)) = lb_members (db w) ∧
   lb_expire (db (update_metadata_bg_task w)) = lb_expire (db w)).
Proof.
  split.
  - set (P := λ (_ : Z) (d d' : redis_db),
      md_fields d' = md_fields d ∧ md_expire d' = md_expire d).
    assert (∀ t d, P t d d) as Hrefl by done.
    assert (∀ t d1 d2 d3, P t d1 d2 → P t d2 d3 → P t d1 d3) as Htrans
      by (unfold P; intros t d1 d2 d3 [? ?] [? ?]; split; congruence).
    destruct (post_score name f w) as [r w'] eqn:Hp.
    by apply (post_score_frame P Hrefl Htrans) in Hp as (_ & _ & HP).
  - set (P := λ (_ : Z) (d d' : redis_db),
      lb_members d' = lb_members d ∧ lb_expire d' = lb_expire d).
    assert (∀ t d, P t d d) as Hrefl by done.
    assert (∀ t d1 d2 d3, P t d1 d2 → P t d2 d3 → P t d1 d3) as Htrans
      by (unfold P; intros t d1 d2 d3 [? ?] [? ?]; split; congruence).
    by apply (update_metadata_bg_task_frame P Hrefl Htrans w).
Qed.

(** X14.  A tick during which one of the first three commands (ZCARD,
    ZREVRANGE, HSET) fails changes nothing in the database: the snapshot
    published before stays as it was. *)
Theorem failed_tick_keeps_snapshot (w : world) :
  false ∈ take 3 (faults w) →
  db (update_metadata_bg_task w) = db w.
Proof.
  intros Hfault. unfold update_metadata_bg_task.
  destruct (redis w); simpl; [|done].
  unfold bind at 1. unfold zcard, command.
  destruct (faults w) as [|[] fl]; simpl in *; [by inversion Hfault| |done].
  apply elem_of_cons in Hfault as [Hfault|Hfault]; [done|].
  unfold bind at 1. unfold zrevrange, command. simpl.
  destruct fl as [|[] fl]; simpl in *; [by inversion Hfault| |done].
  apply elem_of_cons in Hfault as [Hfault|Hfault]; [done|].
  destruct fl as [|[] fl]; simpl in *; [by inversion Hfault| |].
  { apply elem_of_cons in Hfault as [Hfault|Hfault]; [done|].
    by rewrite take_0 in Hfault; inversion Hfault. }
  by destruct (range_window 0 0 (zrevrange_all (live_lb (now w) (db w)))).
Qed.

Lemma failed_tick_keeps_snapshot_witness :
  db (update_metadata_bg_task outage_after_write) = db outage_after_write.
Proof.
  apply (failed_tick_keeps_snapshot outage_after_write).
  apply list_elem_of_further, list_elem_of_here.
Defined.

(** ** Starting without a store *)

Lemma startup_event_ping_fails w :
  head (faults w) = Some false →
  redis (startup_event w) = false ∧ db (startup_event w) = db w.
Proof.
  intros Hf. unfold startup_event, ping, command. simpl.
  by destruct (faults w) as [|[] fl].
Qed.

Lemma step_no_handle e w :
  redis w = false → redis (step e w) = false ∧ db (step e w) = db w.
Proof.
  intros Hr. destruct e as [n f|top|n| | |dt]; simpl;
    unfold post_score, update_score, get_leaderboard, get_user_rank,
      get_metadata, update_metadata_bg_task, guarded;
    rewrite ?Hr; simpl; try done.
  destruct (validate_UserScoreUpdate n f); by rewrite ?Hr.
Qed.

Lemma run_no_handle h w :
  redis w = false → redis (run h w) = false ∧ db (run h w) = db w.
Proof.
  unfold run. revert w. induction h as [|e h IH]; intros w Hr; [done|].
  simpl. destruct (step_no_handle e w Hr) as [Hr' Hd'].
  destruct (IH _ Hr') as [? ?]. split; [done|congruence].
Qed.

(** X15.  When the ping of [startup_event] fails, the handle is dropped for
    good: after any history whatever, the database is what it was at
    startup, the four handlers answer [Unavailable] without changing
    anything, and the background task does nothing. *)
Theorem startup_without_store (w : world) (h : list event)
    (update : UserScoreUpdate) (name : string) (top : Z) :
  head (faults w) = Some false →
  db (run h (startup_event w)) = db w ∧
  update_score update (run h (startup_event w)) =
    (Failed Unavailable, run h (startup_event w)) ∧
  get_leaderboard top (run h (startup_event w)) =
    (Failed Unavailable, run h (startup_event w)) ∧
  get_user_rank name (run h (startup_event w)) =
    (Failed Unavailable, run h (startup_event w)) ∧
  get_metadata (run h (startup_event w)) =
    (Failed Unavailable, run h (startup_event w)) ∧
  update_metadata_bg_task (run h (startup_event w)) = run h (startup_event w).
Proof.
  intros Hf. destruct (startup_event_ping_fails w Hf) as [Hr Hd].
  destruct (run_no_handle h _ Hr) as [Hr' Hd'].
  split; [congruence|].
  unfold update_score, get_leaderboard, get_user_rank, get_metadata,
    update_metadata_bg_task, guarded.
  by rewrite Hr'.
Qed.

Lemma startup_without_store_witness :
  db (run [Submit "alice" (IntScore 150); Tick]
        (startup_event {| db := empty_db; now := 0; redis := false;
                          faults := [false] |})) = empty_db.
Proof.
  apply (startup_without_store
           {| db := empty_db; now := 0; redis := false; faults := [false] |}
           [Submit "alice" (IntScore 150); Tick]
           {| username := "alice"; score := 150 |} "alice" 3).
  reflexivity.
Defined.

(** ** Absent together *)

(** X16.  Over a working connection the rank handler always succeeds, names
    the identity it was asked about, leaves the process as it was, and
    answers with a score and a rank that are present together or absent
    together: present exactly when the identity has an entry. *)
Theorem rank_fields_go_together (name : string) (w : world) :
  redis w = true →
  faults w = [] →
  ∃ r, get_user_rank name w = (Ok r, w) ∧
       rank_username r = name ∧
       (is_Some (rank_score r) ↔ is_Some (live_lb (now w) (db w) !! name)) ∧
       (is_Some (rank_rank r) ↔ is_Some (live_lb (now w) (db w) !! name)).
Proof.
  intros Hr Hf. rewrite get_user_rank_healthy by done.
  eexists. split; [done|]. simpl. split; [done|].
  rewrite !fmap_is_Some. split; [done|].
  rewrite <- !not_eq_None_Some. by rewrite zrevrank_of_None.
Qed.

Lemma rank_fields_go_together_witness :
  ∃ r, get_user_rank "carol" scenario = (Ok r, scenario) ∧
       rank_username r = "carol" ∧
       (is_Some (rank_score r) ↔
        is_Some (live_lb (now scenario) (db scenario) !! "carol")) ∧
       (is_Some (rank_rank r) ↔
        is_Some (live_lb (now scenario) (db scenario) !! "carol")).
Proof.
  apply (rank_fields_go_together "carol" scenario); reflexivity.
Defined.

(** ** Scores out of the range of doubles *)

Lemma round_to_double_large s : 2 ^ 1024 ≤ s → 2 ^ 1024 ≤ round_to_double s.
Proof.
  intros Hs.
  assert (0 < 2 ^ 1024) as Hpos by reflexivity.
  assert (0 < s) as Hs0 by lia.
  assert (1024 ≤ Z.log2 s) as Hlog by (apply Z.log2_le_pow2; lia).
  unfold round_to_double. rewrite Z.abs_eq by lia.
  destruct (Z.leb_spec (Z.log2 s - 52) 0) as [|He]; [lia|].
  set (e := Z.log2 s - 52) in *.
  rewrite Z.sgn_pos, Z.mul_1_l by lia.
  rewrite Z.shiftl_mul_pow2 by lia.
  set (q := Z.shiftr s e).
  assert (2 ^ 52 ≤ q) as Hq.
  { unfold q. rewrite Z.shiftr_div_pow2 by lia.
    apply Z.div_le_lower_bound; [apply Z.pow_pos_nonneg; lia|].
    rewrite Z.mul_comm, <- Z.pow_add_r by lia.
    replace (52 + e) with (Z.log2 s) by (unfold e; lia).
    apply Z.log2_spec. lia. }
  assert (0 < 2 ^ e) as Hpe by (apply Z.pow_pos_nonneg; lia).
  assert (2 ^ 1024 ≤ 2 ^ 52 * 2 ^ e) as Hbig.
  { rewrite <- Z.pow_add_r by lia. apply Z.pow_le_mono_r; lia. }
  match goal with |- _ ≤ ?q' * _ => assert (q ≤ q') as Hq' end.
  { destruct (_ || _); lia. }
  nia.
Qed.

(** X17.  A score too large for a double (2^1024 and above) passes
    validation but is refused by the store: over a working connection the
    submission fails with [Unavailable] and the process is as before. *)
Theorem oversized_score_unavailable (name : string) (s : Z) (w : world) :
  redis w = true →
  faults w = [] →
  2 ^ 1024 ≤ s →
  post_score name (IntScore s) w = (Failed Unavailable, w).
Proof.
  intros Hr Hf Hs.
  assert (0 < 2 ^ 1024) as Hpos by reflexivity.
  unfold post_score. rewrite validate_IntScore by lia.
  apply update_score_refused; [done|done|]. simpl.
  unfold strtod. pose proof (round_to_double_large s Hs).
  by destruct (Z.ltb_spec (Z.abs (round_to_double s)) (2 ^ 1024)); [lia|].
Qed.

Lemma oversized_score_unavailable_witness :
  post_score "alice" (IntScore (2 ^ 1024)) (started 0) =
  (Failed Unavailable, started 0).
Proof.
  apply (oversized_score_unavailable "alice" (2 ^ 1024) (started 0));
    [reflexivity|reflexivity|].
  apply Z.le_refl.
Defined.
